(** * S3Vector: the Mastra vector-store adapter over Amazon S3 Vectors

    A shallow embedding of [src/s3-vector.ts] and [src/types.ts], and
    the properties of its batched upsert, its query post-processing and
    its error wrapping.

    - JavaScript numbers are IEEE-754 binary64 values: the kernel's [float].
    - An optional property or parameter is an [option]; [undefined] is [None].
    - An [async] method that [await]s the client one call at a time is a
      computation in a state-and-exception monad [M].  The state holds the
      remote service's world, the log of the commands handed to
      [client.send], and the console.
    - [try { ... } catch (error) { throw new VectorStoreError(...) }] is
      [try_catch]; what was done before the throw stays done.
    - The remote service is arbitrary: its world and its [send] function
      are parameters of the section that holds the methods.
    - [createClient] is modelled by the options it gives the client; the
      constructor, which only stores the bucket name and that client, and
      [disconnect], which only calls the client's [destroy], are left out. *)

From Stdlib Require Import Floats.
From stdpp Require Import base list list_numbers strings pretty.

Local Open Scope string_scope.

(** ** JavaScript values and the [||] idiom *)

Module Js.

Definition number := float.

(** [ToBoolean] on a number: [0], [-0] and [NaN] are falsy. *)
Definition truthy_number (x : number) : bool :=
  negb (PrimFloat.eqb x 0%float) && negb (PrimFloat.is_nan x).

(** [ToBoolean] on a string: only the empty string is falsy. *)
Definition truthy_string (s : string) : bool :=
  match s with
  | EmptyString => false
  | String _ _ => true
  end.

(** [x || d] where [x] may be [undefined]; objects and arrays are
    always truthy, so only [undefined] selects [d]. *)
Definition or_object {A} (x : option A) (d : A) : A :=
  match x with
  | Some v => v
  | None => d
  end.

(** [x || d] where [x : number | undefined]. *)
Definition or_number (x : option number) (d : number) : number :=
  match x with
  | Some v => if truthy_number v then v else d
  | None => d
  end.

(** [x || d] where [x : string | undefined]. *)
Definition or_string (x : option string) (d : string) : string :=
  match x with
  | Some v => if truthy_string v then v else d
  | None => d
  end.

(** [a && b] used as a condition, [a : boolean | undefined]. *)
Definition truthy_flag (x : option bool) : bool :=
  match x with
  | Some b => b
  | None => false
  end.

(** [arr.slice(start, end)] for [0 <= start <= end]. *)
Definition slice {A} (l : list A) (start end_ : nat) : list A :=
  take (end_ - start) (drop start l).

(** [`${n}`] for an array index. *)
Definition template_nat (n : nat) : string := pretty n.

(** [x >= y] on numbers (false as soon as one side is [NaN]). *)
Definition geb (x y : number) : bool := PrimFloat.leb y x.

(** [x < y] on numbers. *)
Definition ltb (x y : number) : bool := PrimFloat.ltb x y.

End Js.

(** ** types.ts *)

Inductive DistanceMetric := cosine | euclidean.

Inductive MetadataValue :=
| MString (s : string)
| MNumber (x : Js.number)
| MBoolean (b : bool)
| MNull.

(** [Record<string, string | number | boolean | null>], as the ordered
    list of its own properties; [{}] is [[]]. *)
Definition VectorMetadata := list (string * MetadataValue).

Record IndexStats := {
  stats_dimension : Js.number;
  stats_count : Js.number;
  stats_metric : DistanceMetric
}.

Record QueryResult := {
  id : string;
  score : Js.number;
  metadata : VectorMetadata;
  vector : option (list Js.number)
}.

Record CreateIndexParams := {
  create_indexName : string;
  create_dimension : Js.number;
  create_metric : option DistanceMetric
}.

Record UpsertVectorParams := {
  upsert_indexName : string;
  vectors : list (list Js.number);
  upsert_metadata : option (list VectorMetadata);
  ids : option (list string)
}.

Record QueryParams := {
  query_indexName : string;
  queryVector : list Js.number;
  topK : option Js.number;
  filter : option VectorMetadata;
  includeVector : option bool;
  minScore : option Js.number
}.

Record VectorUpdate := {
  update_vector : option (list Js.number);
  update_metadata : option VectorMetadata
}.

Record UpdateVectorParams := {
  update_indexName : string;
  update_id : string;
  update : VectorUpdate
}.

(** [DescribeIndexParams] and [DeleteIndexParams] of [@mastra/core]. *)
Record DescribeIndexParams := { describe_indexName : string }.

Record DeleteIndexParams := { deleteIndex_indexName : string }.

Record DeleteVectorParams := {
  delete_indexName : string;
  delete_id : string
}.

(** What a [catch (error)] clause can receive: an [Error] raised by the
    AWS client, some other thrown value (seen through [String(error)]),
    or one of the adapter's own [VectorStoreError]s.  [details] is the
    third constructor argument, [undefined] when it was not given. *)
Inductive Thrown :=
| SdkError (message : string)
| NonError (text : string)
| StoreError (e : VectorStoreError)
with VectorStoreError :=
| mkVectorStoreError (message : string) (code : string) (details : option Thrown).

Definition message (e : VectorStoreError) : string :=
  match e with mkVectorStoreError m _ _ => m end.

Definition code (e : VectorStoreError) : string :=
  match e with mkVectorStoreError _ c _ => c end.

Definition details (e : VectorStoreError) : option Thrown :=
  match e with mkVectorStoreError _ _ d => d end.

(** [error instanceof Error ? error.message : String(error)];
    [VectorStoreError extends Error]. *)
Definition error_text (error : Thrown) : string :=
  match error with
  | SdkError m => m
  | NonError t => t
  | StoreError e => message e
  end.

(** ** The AWS client, as the adapter sees it

    The commands of [@aws-sdk/client-s3vectors] with the inputs the
    adapter builds, and the properties of the responses it reads. *)

Record PutInputVector := {
  put_key : string;
  put_data : list Js.number;          (* data: { float32: ... } *)
  put_metadata : option VectorMetadata
}.

Inductive Command :=
| CreateIndexCommand (vectorBucketName indexName dataType : string)
    (dimension : Js.number) (distanceMetric : DistanceMetric)
| PutVectorsCommand (vectorBucketName indexName : string)
    (vectors : list PutInputVector)
| QueryVectorsCommand (vectorBucketName indexName : string)
    (queryVector : list Js.number) (topK : Js.number)
    (filter : option VectorMetadata) (returnDistance returnMetadata : bool)
| ListIndexesCommand (vectorBucketName : string)
| GetIndexCommand (vectorBucketName indexName : string)
| DeleteIndexCommand (vectorBucketName indexName : string)
| DeleteVectorsCommand (vectorBucketName indexName : string) (keys : list string).

(** An element of [response.vectors]. *)
Record Candidate := {
  key : string;
  distance : option Js.number;
  cand_metadata : option VectorMetadata;
  data : option (list Js.number)      (* data?: { float32: number[] } *)
}.

Record IndexInfo := {
  dimension : option Js.number;
  distanceMetric : option DistanceMetric
}.

(** A response object; a property the service did not send is [None]. *)
Record Response := {
  resp_vectors : option (list Candidate);
  resp_index : option IndexInfo;
  resp_indexes : option (list string)
}.

Definition empty_response : Response :=
  {| resp_vectors := None; resp_index := None; resp_indexes := None |}.

Definition is_PutVectors (c : Command) : bool :=
  match c with
  | PutVectorsCommand _ _ _ => true
  | _ => false
  end.

Definition put_vectors_of (c : Command) : list PutInputVector :=
  match c with
  | PutVectorsCommand _ _ vs => vs
  | _ => []
  end.

(** ** Computations of the adapter *)

Inductive Outcome (A : Type) :=
| Returned (a : A)
| Threw (error : Thrown)
| OutOfFuel.   (* only a loop that was given too little fuel ends here *)

Arguments Returned {A} a.
Arguments Threw {A} error.
Arguments OutOfFuel {A}.

Section Store.

(** The remote service: its state, and what one [client.send] does. *)
Context {World : Type}.
Variable send : Command -> World -> (Thrown + Response) * World.

(** [this.vectorBucketName] *)
Variable vectorBucketName : string.

Record State := {
  world : World;
  calls : list Command;     (* commands passed to client.send, oldest first *)
  console : list string     (* lines written by console.log *)
}.

Definition M (A : Type) : Type := State -> Outcome A * State.

(** The state once [command] has been handed to the client and the
    service has moved to [w]. *)
Definition sent (command : Command) (w : World) (st : State) : State :=
  {| world := w; calls := calls st ++ [command]; console := console st |}.

Definition ret {A} (a : A) : M A := fun st => (Returned a, st).

Definition throw {A} (error : Thrown) : M A := fun st => (Threw error, st).

Definition bind {A B} (c : M A) (k : A -> M B) : M B :=
  fun st =>
    match c st with
    | (Returned a, st') => k a st'
    | (Threw error, st') => (Threw error, st')
    | (OutOfFuel, st') => (OutOfFuel, st')
    end.

Definition try_catch {A} (c : M A) (handler : Thrown -> M A) : M A :=
  fun st =>
    match c st with
    | (Threw error, st') => handler error st'
    | r => r
    end.

(** [await this.client.send(command)] *)
Definition client_send (command : Command) : M Response :=
  fun st =>
    let '(reply, w) := send command (world st) in
    match reply with
    | inr response => (Returned response, sent command w st)
    | inl error => (Threw error, sent command w st)
    end.

Definition console_log (line : string) : M unit :=
  fun st => (Returned tt, {| world := world st;
                             calls := calls st;
                             console := console st ++ [line] |}).

Notation "x <- c ;; k" := (bind c (fun x => k))
  (at level 100, c at next level, right associativity).
Notation "c ;;; k" := (bind c (fun _ => k))
  (at level 100, right associativity).

(** [throw new VectorStoreError(message, code, details)] *)
Definition throw_store_error {A} (m c : string) (d : option Thrown) : M A :=
  throw (StoreError (mkVectorStoreError m c d)).

(** *** createIndex *)
Definition createIndex (params : CreateIndexParams) : M unit :=
  try_catch
    (let command :=
       CreateIndexCommand vectorBucketName (create_indexName params) "float32"
         (create_dimension params)
         (Js.or_object (create_metric params) cosine) in
     client_send command ;;;
     ret tt)
    (fun error =>
       throw_store_error
         ("Failed to create index " ++ create_indexName params ++ ": "
            ++ error_text error)
         "index_creation_failed" (Some error)).

(** *** upsert *)

(** The element built by [batch.map((vector, index) => ...)] in the
    iteration that starts at [i]. *)
Definition batch_record (params : UpsertVectorParams) (i index : nat)
    (vector : list Js.number) : PutInputVector :=
  {| put_key :=
       Js.or_string (ids params ≫= (.!! (i + index)))
         ("vector_" ++ Js.template_nat (i + index));
     put_data := vector;
     put_metadata :=
       Some (Js.or_object (upsert_metadata params ≫= (.!! (i + index))) []) |}.

(** [new PutVectorsCommand({...})] of the iteration that starts at [i]. *)
Definition batch_command (BATCH_SIZE : nat) (params : UpsertVectorParams)
    (i : nat) : Command :=
  let batch := Js.slice (vectors params) i (i + BATCH_SIZE) in
  PutVectorsCommand vectorBucketName (upsert_indexName params)
    (imap (batch_record params i) batch).

(** The line of the loop's [console.log]. *)
Definition log_line (BATCH_SIZE : nat) (params : UpsertVectorParams) (i : nat)
    : string :=
  "Upserting vectors " ++ Js.template_nat (i + 1) ++ " to "
    ++ Js.template_nat (Nat.min (i + BATCH_SIZE) (length (vectors params)))
    ++ " into index " ++ upsert_indexName params.

(** The body of [upsert]'s two [catch] clauses, which are the same. *)
Definition upsert_failed {A} (params : UpsertVectorParams) (error : Thrown) : M A :=
  throw_store_error
    ("Failed to upsert vectors to index " ++ upsert_indexName params ++ ": "
       ++ error_text error)
    "upsert_failed" (Some error).

(** [for (let i = ...; i < params.vectors.length; i += BATCH_SIZE) { ... }]
    entered with the loop variable at [i].  Each iteration uses one unit
    of [fuel]. *)
Fixpoint upsert_loop (BATCH_SIZE : nat) (params : UpsertVectorParams)
    (fuel i : nat) : M unit :=
  if (i <? length (vectors params))%nat then
    match fuel with
    | 0 => fun st => (OutOfFuel, st)
    | S fuel' =>
        console_log (log_line BATCH_SIZE params i) ;;;
        try_catch
          (client_send (batch_command BATCH_SIZE params i) ;;; ret tt)
          (upsert_failed params) ;;;
        upsert_loop BATCH_SIZE params fuel' (i + BATCH_SIZE)
    end
  else ret tt.

(** The method with its batch size as a parameter; the loop runs at
    most [length vectors] times when the batch size is positive. *)
Definition upsert_batched (BATCH_SIZE : nat) (params : UpsertVectorParams)
    : M (list string) :=
  try_catch
    (upsert_loop BATCH_SIZE params (length (vectors params)) 0 ;;;
     ret (Js.or_object (ids params) []))
    (upsert_failed params).

Definition BATCH_SIZE : nat := 10.

Definition upsert (params : UpsertVectorParams) : M (list string) :=
  upsert_batched BATCH_SIZE params.

(** *** query *)

(** The callback of [.filter(...)]. *)
Definition minScore_filter (params : QueryParams) (result : Candidate) : bool :=
  match minScore params, distance result with
  | Some min_score, Some d =>
      let score := (1 - d)%float in
      Js.geb score min_score
  | _, _ => true
  end.

(** The callback of [.map(...)]. *)
Definition to_QueryResult (params : QueryParams) (result : Candidate)
    : QueryResult :=
  {| id := key result;
     score := match distance result with
              | Some d => (1 - d)%float
              | None => 0%float
              end;
     metadata := Js.or_object (cand_metadata result) [];
     vector := if Js.truthy_flag (includeVector params)
               then data result      (* params.includeVector && typedResult.data *)
               else None |}.

Definition query_command (params : QueryParams) : Command :=
  QueryVectorsCommand vectorBucketName (query_indexName params)
    (queryVector params) (Js.or_number (topK params) 10%float)
    (filter params) true true.

Definition query (params : QueryParams) : M (list QueryResult) :=
  try_catch
    (response <- client_send (query_command params) ;;
     ret (to_QueryResult params
            <$> List.filter (minScore_filter params)
                  (Js.or_object (resp_vectors response) [])))
    (fun error =>
       throw_store_error
         ("Failed to query index " ++ query_indexName params ++ ": "
            ++ error_text error)
         "query_failed" (Some error)).

(** *** describeIndex, deleteIndex, listIndexes *)
Definition describeIndex (params : DescribeIndexParams) : M IndexStats :=
  try_catch
    (response <- client_send
                   (GetIndexCommand vectorBucketName (describe_indexName params)) ;;
     ret {| stats_dimension :=
              Js.or_number (resp_index response ≫= dimension) 0%float;
            stats_count := 0%float;
            stats_metric :=
              Js.or_object (resp_index response ≫= distanceMetric) cosine |})
    (fun error =>
       throw_store_error
         ("Failed to describe index " ++ describe_indexName params ++ ": "
            ++ error_text error)
         "describe_failed" (Some error)).

Definition deleteIndex (params : DeleteIndexParams) : M unit :=
  try_catch
    (client_send
       (DeleteIndexCommand vectorBucketName (deleteIndex_indexName params)) ;;;
     ret tt)
    (fun error =>
       throw_store_error
         ("Failed to delete index " ++ deleteIndex_indexName params ++ ": "
            ++ error_text error)
         "delete_index_failed" (Some error)).

Definition listIndexes : M (list string) :=
  try_catch
    (response <- client_send (ListIndexesCommand vectorBucketName) ;;
     ret (Js.or_object (resp_indexes response) []))
    (fun error =>
       throw_store_error
         ("Failed to list indexes: " ++ error_text error)
         "list_indexes_failed" (Some error)).

(** *** updateVector *)
Definition updateVector (params : UpdateVectorParams) : M unit :=
  try_catch
    (match update_vector (update params) with
     | None =>             (* !params.update.vector: an array is truthy *)
         throw_store_error
           "Vector data is required for update operation in S3 Vectors"
           "update_requires_vector_data" None
     | Some v =>
         let vectors :=
           [ {| put_key := update_id params;
                put_data := v;
                put_metadata := update_metadata (update params) |} ] in
         let command :=
           PutVectorsCommand vectorBucketName (update_indexName params) vectors in
         client_send command ;;;
         ret tt
     end)
    (fun error =>
       throw_store_error
         ("Failed to update vector " ++ update_id params ++ " in index "
            ++ update_indexName params ++ ": " ++ error_text error)
         "update_vector_failed" (Some error)).

(** *** deleteVector *)
Definition deleteVector (params : DeleteVectorParams) : M unit :=
  try_catch
    (let command :=
       DeleteVectorsCommand vectorBucketName (delete_indexName params)
         [delete_id params] in
     client_send command ;;;
     ret tt)
    (fun error =>
       throw_store_error
         ("Failed to delete vector " ++ delete_id params ++ " from index "
            ++ delete_indexName params ++ ": " ++ error_text error)
         "delete_vector_failed" (Some error)).

(** *** validateExistingIndex: no [try] around the comparison *)
Definition metric_name (m : DistanceMetric) : string :=
  match m with cosine => "cosine" | euclidean => "euclidean" end.

Definition validateExistingIndex (indexName : string) (dim : Js.number)
    (metric : string) : M unit :=
  stats <- describeIndex {| describe_indexName := indexName |} ;;
  if negb (PrimFloat.eqb (stats_dimension stats) dim)      (* !== on numbers *)
     || negb (String.eqb (metric_name (stats_metric stats)) metric)
  then throw_store_error
         ("Index " ++ indexName ++ " already exists with different dimension or metric")
         "index_mismatch" None
  else ret tt.

(** *** Vocabulary for the statements about [upsert] *)

(** The service handed [cmds] one after the other, each once the one
    before has been answered, up to and including the first that
    fails: the commands handed over, the failure if any, and the
    world that is left. *)
Fixpoint issue_in_order (cmds : list Command) (w : World)
    : list Command * option Thrown * World :=
  match cmds with
  | [] => ([], None, w)
  | c :: rest =>
      match send c w with
      | (inl error, w') => ([c], Some error, w')
      | (inr _, w') =>
          let '(issued, failure, w'') := issue_in_order rest w' in
          (c :: issued, failure, w'')
      end
  end.

End Store.

Arguments State : clear implicits.

(** [ceil(n / b)] *)
Definition ceil_div (n b : nat) : nat := (n + (b - 1)) / b.

(** The values [i, i + b, i + 2b, ...] below [n]. *)
Definition batch_starts (b n i : nat) : list nat :=
  (λ j, i + j * b) <$> seq 0 (ceil_div (n - i) b).

(** ** A scripted service for concrete runs

    Its world is the queue of replies still to give; once the queue is
    empty every command is answered with an empty response. *)
Module Scripted.

Definition World := list (Thrown + Response).

Definition send (c : Command) (w : World) : (Thrown + Response) * World :=
  match w with
  | [] => (inr empty_response, [])
  | reply :: w' => (reply, w')
  end.

Definition start (w : World) : State World :=
  {| world := w; calls := []; console := [] |}.

Definition ok : Thrown + Response := inr empty_response.

End Scripted.

(** ** Vocabulary of the statements *)

(** The error built by the [catch] around the send in [upsert], and the
    one built by the [catch] around the loop when it receives the first. *)
Definition upsert_inner_error (params : UpsertVectorParams) (error : Thrown)
    : VectorStoreError :=
  mkVectorStoreError
    ("Failed to upsert vectors to index " ++ upsert_indexName params ++ ": "
       ++ error_text error)
    "upsert_failed" (Some error).

Definition upsert_outer_error (params : UpsertVectorParams) (error : Thrown)
    : VectorStoreError :=
  upsert_inner_error params (StoreError (upsert_inner_error params error)).

(** What the loop's caller, and what [upsert]'s caller, sees for a given
    end of [issue_in_order]. *)
Definition loop_outcome (params : UpsertVectorParams)
    (failure : option Thrown) : Outcome unit :=
  match failure with
  | None => Returned tt
  | Some error => Threw (StoreError (upsert_inner_error params error))
  end.

Definition upsert_outcome (params : UpsertVectorParams)
    (failure : option Thrown) : Outcome (list string) :=
  match failure with
  | None => Returned (Js.or_object (ids params) [])
  | Some error => Threw (StoreError (upsert_outer_error params error))
  end.

(** [response.vectors || []] *)
Definition candidates (response : Response) : list Candidate :=
  Js.or_object (resp_vectors response) [].

(** The error of [updateVector]'s guard. *)
Definition update_guard_error : VectorStoreError :=
  mkVectorStoreError
    "Vector data is required for update operation in S3 Vectors"
    "update_requires_vector_data" None.

(** The shape [catch] gives to a failure of the one remote call. *)
Definition wrapped_once (outcome_code : string) (error : Thrown)
    {A} (o : Outcome A) : Prop :=
  ∃ err, o = Threw (StoreError err)
         ∧ code err = outcome_code
         ∧ details err = Some error.


(** ** Concrete inputs *)

Definition docs_without_ids (n : nat) : UpsertVectorParams :=
  {| upsert_indexName := "docs";
     vectors := replicate n [1%float; 0%float; 0%float];
     upsert_metadata := None;
     ids := None |}.

Definition boom : Thrown := SdkError "boom".

(** ** A concrete query: three candidates, the last without a distance *)

Definition near : Candidate :=
  {| key := "a"; distance := Some 0.25%float; cand_metadata := None; data := None |}.

Definition far : Candidate :=
  {| key := "b"; distance := Some 0.75%float; cand_metadata := None; data := None |}.

Definition unranked : Candidate :=
  {| key := "c"; distance := None; cand_metadata := None; data := None |}.

Definition three_candidates : Response :=
  {| resp_vectors := Some [near; far; unranked];
     resp_index := None;
     resp_indexes := None |}.

Definition at_least_half : QueryParams :=
  {| query_indexName := "docs";
     queryVector := [1%float; 0%float; 0%float];
     topK := None;
     filter := None;
     includeVector := None;
     minScore := Some 0.5%float |}.

Definition answered : State Scripted.World :=
  Scripted.start [inr three_candidates].

Definition metadata_only : UpdateVectorParams :=
  {| update_indexName := "docs";
     update_id := "a";
     update := {| update_vector := None;
                  update_metadata := Some [("title", MString "Doc 1")] |} |}.


(** ** createClient

    [new S3VectorsClient({...})] is modelled by the options object it is
    given. *)

Record S3VectorConfig := {
  region : string;
  accessKeyId : option string;
  secretAccessKey : option string;
  sessionToken : option string;
  endpoint : option string
}.

Record Credentials := {
  cred_accessKeyId : string;
  cred_secretAccessKey : string;
  cred_sessionToken : option string
}.

Record S3VectorsClientConfig := {
  client_region : string;
  client_credentials : option Credentials;
  client_endpoint : option string
}.

Definition createClient (config : S3VectorConfig) : S3VectorsClientConfig :=
  {| client_region := region config;
     client_credentials :=
       match accessKeyId config, secretAccessKey config with
       | Some k, Some s =>
           (* config.accessKeyId && config.secretAccessKey *)
           if Js.truthy_string k && Js.truthy_string s
           then Some {| cred_accessKeyId := k;
                        cred_secretAccessKey := s;
                        cred_sessionToken := sessionToken config |}
           else None
       | _, _ => None
       end;
     client_endpoint := endpoint config |}.

(** ** More vocabulary *)

(** The [vectorBucketName] of a command's input. *)
Definition command_bucket (c : Command) : string :=
  match c with
  | CreateIndexCommand b _ _ _ _ => b
  | PutVectorsCommand b _ _ => b
  | QueryVectorsCommand b _ _ _ _ _ _ => b
  | ListIndexesCommand b => b
  | GetIndexCommand b _ => b
  | DeleteIndexCommand b _ => b
  | DeleteVectorsCommand b _ _ => b
  end.

(** The candidates that report no distance. *)
Definition without_distance (c : Candidate) : bool :=
  match distance c with
  | Some _ => false
  | None => true
  end.

(** ** A service that accepts everything

    Its world counts the commands it has answered. *)
Module Accepting.

Definition World := nat.

Definition send (c : Command) (w : World) : (Thrown + Response) * World :=
  (inr empty_response, S w).

Definition start : State World :=
  {| world := 0%nat; calls := []; console := [] |}.

End Accepting.

(** ** More concrete inputs *)

Definition two_docs : UpsertVectorParams :=
  {| upsert_indexName := "docs";
     vectors := [[1%float; 0%float; 0%float]; [0%float; 1%float; 0%float]];
     upsert_metadata := Some [[("title", MString "Doc 1")]];
     ids := Some ["a"; "b"] |}.

Definition second_id_empty : UpsertVectorParams :=
  {| upsert_indexName := "docs";
     vectors := [[1%float; 0%float; 0%float]; [0%float; 1%float; 0%float]];
     upsert_metadata := None;
     ids := Some ["a"; ""] |}.

Definition ids_without_vectors : UpsertVectorParams :=
  {| upsert_indexName := "docs";
     vectors := [];
     upsert_metadata := None;
     ids := Some ["a"] |}.

Definition no_threshold : QueryParams :=
  {| query_indexName := "docs";
     queryVector := [1%float; 0%float; 0%float];
     topK := Some 0%float;
     filter := None;
     includeVector := Some true;
     minScore := None |}.

Definition at_least_quarter : QueryParams :=
  {| query_indexName := "docs";
     queryVector := [1%float; 0%float; 0%float];
     topK := None;
     filter := None;
     includeVector := None;
     minScore := Some 0.25%float |}.

Definition nan_threshold : QueryParams :=
  {| query_indexName := "docs";
     queryVector := [1%float; 0%float; 0%float];
     topK := None;
     filter := None;
     includeVector := None;
     minScore := Some nan |}.

Definition index_of_three : Response :=
  {| resp_vectors := None;
     resp_index := Some {| dimension := Some 3%float;
                           distanceMetric := Some euclidean |};
     resp_indexes := Some ["docs"; "notes"] |}.

Definition replace_with_nothing : UpdateVectorParams :=
  {| update_indexName := "docs";
     update_id := "a";
     update := {| update_vector := Some []; update_metadata := None |} |}.

Definition static_keys : S3VectorConfig :=
  {| region := "us-west-2";
     accessKeyId := Some "test-key";
     secretAccessKey := Some "test-secret";
     sessionToken := None;
     endpoint := None |}.

Definition lost : Candidate :=
  {| key := "d"; distance := Some nan; cand_metadata := None;
     data := Some [0%float; 0%float; 1%float] |}.

Definition with_a_nan_distance : Response :=
  {| resp_vectors := Some [near; lost; unranked];
     resp_index := None;
     resp_indexes := None |}.

Definition new_index : CreateIndexParams :=
  {| create_indexName := "docs";
     create_dimension := 1536%float;
     create_metric := None |}.

(** ** Addressing of commands *)

(** The [indexName] of a command's input; ListIndexes has none. *)
Definition command_index (c : Command) : option string :=
  match c with
  | CreateIndexCommand _ i _ _ _ => Some i
  | PutVectorsCommand _ i _ => Some i
  | QueryVectorsCommand _ i _ _ _ _ _ => Some i
  | ListIndexesCommand _ => None
  | GetIndexCommand _ i => Some i
  | DeleteIndexCommand _ i => Some i
  | DeleteVectorsCommand _ i _ => Some i
  end.

(** Whatever the state it starts from, the computation only adds
    commands to the log, each with the given bucket and index. *)
Definition addressed_to {World A} (bucket : string) (index : option string)
    (m : State World → Outcome A * State World) : Prop :=
  ∀ st, ∃ issued,
    calls (m st).2 = (calls st ++ issued)%list
    ∧ Forall (λ c, command_bucket c = bucket ∧ command_index c = index) issued.

(** * Properties *)

Local Open Scope nat_scope.

Create HintDb monad_ops discriminated.
#[global] Hint Unfold ret throw bind try_catch client_send console_log
  throw_store_error upsert_failed sent : monad_ops.

(** Unfold the monad's operations down to the service's replies. *)
Ltac run := autounfold with monad_ops; cbn [world calls console].

(** ** Numbers *)

Lemma SFcompare_swap x y :
  SFcompare y x = option_map CompOpp (SFcompare x y).
Proof.
  destruct x as [[]|[]| |[] m1 e1], y as [[]|[]| |[] m2 e2];
    simpl; try reflexivity.
  all: rewrite (Z.compare_antisym e1 e2); destruct (e1 ?= e2)%Z;
    simpl; try reflexivity.
  all: change (Pos.compare_cont Eq ?a ?b) with (Pos.compare a b).
  all: rewrite (Pos.compare_antisym m1 m2);
    destruct (m1 ?= m2)%positive; reflexivity.
Qed.

(** [x >= s] excludes [x < s], also at infinities and [NaN]. *)
Lemma geb_not_ltb (x s : Js.number) : Js.geb x s = true → Js.ltb x s = false.
Proof.
  unfold Js.geb, Js.ltb. rewrite leb_spec, ltb_spec. unfold SFleb, SFltb.
  rewrite (SFcompare_swap (Prim2SF s) (Prim2SF x)).
  destruct (SFcompare (Prim2SF s) (Prim2SF x)) as [[]|]; simpl; congruence.
Qed.

(** ** Ceiling division and the loop variable *)

Lemma ceil_div_0 b : 0 < b → ceil_div 0 b = 0.
Proof. intros Hb. unfold ceil_div. apply Nat.div_small. lia. Qed.

Lemma ceil_div_step n b : 0 < b → 0 < n → ceil_div n b = S (ceil_div (n - b) b).
Proof.
  intros Hb Hn. unfold ceil_div.
  destruct (decide (n ≤ b)) as [Hle|Hgt].
  - replace (n - b) with 0 by lia. rewrite (Nat.div_small (0 + (b - 1))) by lia.
    symmetry. apply Nat.div_unique with (r := n - 1); lia.
  - replace (n + (b - 1)) with ((n - b + (b - 1)) + 1 * b) by lia.
    rewrite Nat.div_add by lia. lia.
Qed.

(** [ceil_div n b] is the least [q] with [n <= q * b]. *)
Lemma ceil_div_spec n b q : 0 < b → ceil_div n b ≤ q ↔ n ≤ q * b.
Proof.
  intros Hb. unfold ceil_div. split; intros H.
  - pose proof (Nat.div_mod_eq (n + (b - 1)) b) as E.
    pose proof (Nat.mod_upper_bound (n + (b - 1)) b ltac:(lia)) as U. nia.
  - assert ((n + (b - 1)) / b < S q); [|lia].
    apply Nat.Div0.div_lt_upper_bound. nia.
Qed.

Lemma batch_starts_done b n i : 0 < b → n ≤ i → batch_starts b n i = [].
Proof.
  intros Hb Hi. unfold batch_starts.
  replace (n - i) with 0 by lia. by rewrite ceil_div_0.
Qed.

Lemma batch_starts_step b n i :
  0 < b → i < n → batch_starts b n i = i :: batch_starts b n (i + b).
Proof.
  intros Hb Hi. unfold batch_starts.
  rewrite (ceil_div_step (n - i) b) by lia.
  replace (n - i - b) with (n - (i + b)) by lia.
  cbn [seq fmap list_fmap]. f_equal; [lia|].
  rewrite <- fmap_S_seq, <- list_fmap_compose.
  apply list_fmap_ext. intros _ j _. simpl. lia.
Qed.

(** ** The upsert loop *)

Section UpsertFacts.

Context {World : Type}.
Variable send : Command → World → (Thrown + Response) * World.
Variable bucket : string.

Local Abbreviation batch_commands b params i :=
  (batch_command bucket b params <$> batch_starts b (length (vectors params)) i).

(** One iteration of the loop. *)
Lemma upsert_loop_step b params fuel i st :
  i < length (vectors params) →
  upsert_loop send bucket b params (S fuel) i st =
    let command := batch_command bucket b params i in
    let '(reply, w) := send command (world st) in
    let st' := {| world := w;
                  calls := calls st ++ [command];
                  console := console st ++ [log_line b params i] |} in
    match reply with
    | inl error => (loop_outcome params (Some error), st')
    | inr _ => upsert_loop send bucket b params fuel (i + b) st'
    end.
Proof.
  intros Hi. cbn [upsert_loop].
  destruct (Nat.ltb_spec i (length (vectors params))); [|lia].
  run. by destruct (send _ (world st)) as [[error|response] w].
Qed.

Lemma upsert_loop_exit b params fuel i st :
  length (vectors params) ≤ i →
  upsert_loop send bucket b params fuel i st = (Returned tt, st).
Proof.
  intros Hi. destruct fuel; cbn [upsert_loop];
    by destruct (Nat.ltb_spec i (length (vectors params))); [lia|].
Qed.

(** The loop hands its batches to the service in order and stops at the
    first failure; with a positive batch size, [length vectors - i]
    units of fuel are enough. *)
Lemma upsert_loop_run b params fuel i st :
  0 < b → length (vectors params) - i ≤ fuel →
  let '(issued, failure, w) :=
    issue_in_order send (batch_commands b params i) (world st) in
  let r := upsert_loop send bucket b params fuel i st in
  r.1 = loop_outcome params failure
  ∧ world r.2 = w
  ∧ calls r.2 = (calls st ++ issued)%list.
Proof.
  intros Hb. revert i st.
  induction fuel as [|fuel IH]; intros i st Hfuel.
  - rewrite batch_starts_done, upsert_loop_exit by lia.
    simpl. by rewrite app_nil_r.
  - destruct (decide (i < length (vectors params))) as [Hi|Hi].
    + rewrite batch_starts_step, upsert_loop_step by done.
      cbn [fmap list_fmap issue_in_order].
      destruct (send _ (world st)) as [[error|response] w1].
      * done.
      * cbn zeta.
        match goal with
        | |- context [upsert_loop _ _ _ _ _ _ ?s] =>
            specialize (IH (i + b) s ltac:(lia))
        end.
        cbn [world calls console] in IH.
        destruct (issue_in_order _ _ w1) as [[issued failure] w2].
        destruct IH as (-> & -> & ->).
        by rewrite <- app_assoc.
    + rewrite batch_starts_done, upsert_loop_exit by lia.
      simpl. by rewrite app_nil_r.
Qed.

(** *** What [issue_in_order] hands over *)

Lemma issue_in_order_prefix cmds w :
  ∃ n, (issue_in_order send cmds w).1.1 = take n cmds.
Proof.
  revert w. induction cmds as [|c cmds IH]; intros w; simpl.
  - by exists 0.
  - destruct (send c w) as [[error|response] w1].
    + by exists 1.
    + destruct (IH w1) as [n Hn].
      destruct (issue_in_order send cmds w1) as [[issued failure] w2].
      simpl in *. exists (S n). by rewrite Hn.
Qed.

Lemma issue_in_order_complete cmds w :
  (issue_in_order send cmds w).1.2 = None →
  (issue_in_order send cmds w).1.1 = cmds.
Proof.
  revert w. induction cmds as [|c cmds IH]; intros w; simpl; [done|].
  destruct (send c w) as [[error|response] w1]; [done|].
  specialize (IH w1).
  destruct (issue_in_order send cmds w1) as [[issued failure] w2].
  simpl in *. intros ->. by rewrite IH.
Qed.

(** The commands before position [k] are answered, leaving [wk], and
    the command at [k] fails there: the hand-over stops after it. *)
Lemma issue_in_order_fails_at cmds k command w wk error w' :
  cmds !! k = Some command →
  issue_in_order send (take k cmds) w = (take k cmds, None, wk) →
  send command wk = (inl error, w') →
  issue_in_order send cmds w = (take (S k) cmds, Some error, w').
Proof.
  revert cmds w. induction k as [|k IH]; intros [|c cmds] w Hk Hbefore Hfail;
    try done.
  - simpl in *. simplify_eq. by rewrite Hfail.
  - simpl in *. destruct (send c w) as [[e|response] w1]; [done|].
    destruct (issue_in_order send (take k cmds) w1) as [[issued failure] w2] eqn:E.
    simplify_eq. by rewrite (IH cmds w1 Hk E Hfail).
Qed.

Lemma issue_in_order_all_accepted cmds w :
  (∀ c w0, c ∈ cmds → ∃ response w1, send c w0 = (inr response, w1)) →
  (issue_in_order send cmds w).1.2 = None.
Proof.
  revert w. induction cmds as [|c cmds IH]; intros w Hok; simpl; [done|].
  destruct (Hok c w) as (response & w1 & ->); [by left|].
  specialize (IH w1 (λ c0 w0 Hc0, Hok c0 w0 (list_elem_of_further _ _ _ Hc0))).
  by destruct (issue_in_order send cmds w1) as [[issued failure] w2].
Qed.

(** *** The whole method *)

Lemma upsert_batched_run b params st :
  0 < b →
  let '(issued, failure, w) :=
    issue_in_order send (batch_commands b params 0) (world st) in
  let r := upsert_batched send bucket b params st in
  r.1 = upsert_outcome params failure
  ∧ world r.2 = w
  ∧ calls r.2 = (calls st ++ issued)%list.
Proof.
  intros Hb.
  pose proof (upsert_loop_run b params (length (vectors params)) 0 st Hb
                ltac:(lia)) as H.
  destruct (issue_in_order _ _ (world st)) as [[issued failure] w].
  cbn zeta in *. destruct H as (Hout & Hw & Hc).
  unfold upsert_batched, try_catch, bind.
  destruct (upsert_loop _ _ _ _ _ _ st) as [o st']. simpl in *. subst o.
  by destruct failure.
Qed.

(** *** The batches as a whole *)

Lemma batch_record_shift params i index v :
  batch_record params i index v = batch_record params 0 (i + index) v.
Proof. done. Qed.

Lemma batch_records_concat b params k :
  concat (put_vectors_of <$>
            (batch_command bucket b params <$> ((λ j, j * b) <$> seq 0 k)))
  = imap (batch_record params 0) (take (k * b) (vectors params)).
Proof.
  induction k as [|k IH]; [done|].
  rewrite seq_S, !fmap_app, concat_app, IH. simpl.
  rewrite app_nil_r. unfold Js.slice.
  replace (k * b + b - k * b) with b by lia.
  replace (b + k * b) with (k * b + b) by lia.
  rewrite <- (take_take_drop (vectors params) (k * b) b), imap_app.
  f_equal.
  destruct (decide (k * b ≤ length (vectors params))) as [Hle|Hgt].
  - rewrite length_take_le by done. by apply imap_ext.
  - rewrite drop_ge by lia. by rewrite take_nil.
Qed.

Lemma batch_starts_0 b n :
  batch_starts b n 0 = (λ j, j * b) <$> seq 0 (ceil_div n b).
Proof. unfold batch_starts. by rewrite Nat.sub_0_r. Qed.

Lemma batch_records_data params l :
  put_data <$> imap (batch_record params 0) l = l.
Proof.
  apply list_eq. intros i.
  rewrite list_lookup_fmap, list_lookup_imap. by destruct (l !! i).
Qed.

Lemma batch_commands_length b params :
  length (batch_commands b params 0) = ceil_div (length (vectors params)) b.
Proof. by rewrite batch_starts_0, !length_fmap, length_seq. Qed.

Lemma batch_command_size b params i :
  ∃ records,
    batch_command bucket b params i
      = PutVectorsCommand bucket (upsert_indexName params) records
    ∧ length records ≤ b.
Proof.
  eexists. split; [done|].
  rewrite length_imap. unfold Js.slice. rewrite length_take. lia.
Qed.

End UpsertFacts.

(** ** One remote call inside one [try] *)

Section OneCall.

Context {World : Type}.
Variable send : Command → World → (Thrown + Response) * World.

(** [try { const response = await send(command); return f(response) }
    catch (error) { handler }] *)
Lemma try_send_run {A} command (f : Response → A) handler st :
  try_catch (bind (client_send send command) (λ response, ret (f response)))
    handler st
  = let '(reply, w) := send command (world st) in
    match reply with
    | inr response => (Returned (f response), sent command w st)
    | inl error => handler error (sent command w st)
    end.
Proof.
  run. by destruct (send command (world st)) as [[error|response] w].
Qed.

End OneCall.

(** [List.filter] keeps a subsequence. *)
Lemma filter_sublist {A} (f : A → bool) (l : list A) :
  List.filter f l `sublist_of` l.
Proof.
  induction l as [|x l IH]; simpl; [constructor|].
  destruct (f x); by constructor.
Qed.

Lemma elem_of_filter {A} (f : A → bool) (l : list A) x :
  x ∈ List.filter f l ↔ x ∈ l ∧ f x = true.
Proof. rewrite !list_elem_of_In. apply filter_In. Qed.

(** ** upsert *)

Section UpsertClaims.

Context {World : Type}.
Variable send : Command → World → (Thrown + Response) * World.
Variable bucket : string.

Local Abbreviation batch_commands b params :=
  (batch_command bucket b params <$> batch_starts b (length (vectors params)) 0).

(** With a positive batch size the loop never runs out of the fuel
    [upsert_batched] gives it: the method returns or throws. *)
Lemma upsert_batched_total b params st :
  0 < b → (upsert_batched send bucket b params st).1 ≠ OutOfFuel.
Proof.
  intros Hb. pose proof (upsert_batched_run send bucket b params st Hb) as H.
  destruct (issue_in_order _ _ _) as [[issued failure] w].
  destruct H as (-> & _). by destruct failure.
Qed.

(** A call that returns has handed over every batch, and returns
    [params.ids || []]. *)
Lemma upsert_batched_returned b params st l :
  0 < b →
  (upsert_batched send bucket b params st).1 = Returned l →
  l = Js.or_object (ids params) []
  ∧ calls (upsert_batched send bucket b params st).2
    = (calls st ++ batch_commands b params)%list.
Proof.
  intros Hb Hret.
  pose proof (upsert_batched_run send bucket b params st Hb) as H.
  pose proof (issue_in_order_complete send (batch_commands b params) (world st)) as Hc.
  destruct (issue_in_order _ _ _) as [[issued failure] w].
  destruct H as (Hout & _ & ->). simpl in Hc.
  rewrite Hout in Hret. destruct failure; simpl in Hret; [done|].
  rewrite Hc by done. by simplify_eq.
Qed.

(** A service that accepts every PutVectors command makes the call
    return. *)
Lemma upsert_returns_when_writes_are_accepted params st :
  (∀ c w0, is_PutVectors c = true →
           ∃ response w1, send c w0 = (inr response, w1)) →
  (upsert send bucket params st).1 = Returned (Js.or_object (ids params) []).
Proof.
  intros Hok.
  pose proof (upsert_batched_run send bucket 10 params st ltac:(lia)) as H.
  pose proof (issue_in_order_all_accepted send (batch_commands 10 params)
                (world st)) as Hnone.
  destruct (issue_in_order _ _ _) as [[issued failure] w].
  destruct H as (Hout & _). unfold upsert, BATCH_SIZE. rewrite Hout.
  simpl in Hnone. rewrite Hnone; [done|].
  intros c w0 (i & -> & _)%list_elem_of_fmap. by apply Hok.
Qed.

Lemma upsert_returns_supplied_ids params st supplied l :
  ids params = Some supplied →
  (upsert send bucket params st).1 = Returned l →
  l = supplied.
Proof.
  intros Hids Hret.
  destruct (upsert_batched_returned BATCH_SIZE params st l) as [-> _];
    [unfold BATCH_SIZE; lia|done|].
  by rewrite Hids.
Qed.

Lemma upsert_returns_nothing_without_ids params st l :
  ids params = None →
  (upsert send bucket params st).1 = Returned l →
  l = [].
Proof.
  intros Hids Hret.
  destruct (upsert_batched_returned BATCH_SIZE params st l) as [-> _];
    [unfold BATCH_SIZE; lia|done|].
  by rewrite Hids.
Qed.

(** C4, as amended: an upsert call of N embeddings that returns has
    issued exactly ceil(N/10) PutVectors calls, each with at most 10
    records, and the records of the calls, in the order of issue, carry
    the input embeddings in input order, each once.  (This holds for
    every N, hence for N > 10.) *)
Theorem upsert_issues_ceil_batches params st l :
  (upsert send bucket params st).1 = Returned l →
  ∃ issued,
    calls (upsert send bucket params st).2 = (calls st ++ issued)%list
    ∧ length issued = ceil_div (length (vectors params)) 10
    ∧ Forall (λ c, ∃ records,
                c = PutVectorsCommand bucket (upsert_indexName params) records
                ∧ length records ≤ 10) issued
    ∧ put_data <$> concat (put_vectors_of <$> issued) = vectors params.
Proof.
  intros Hret. exists (batch_commands 10 params).
  destruct (upsert_batched_returned 10 params st l) as [_ Hcalls];
    [lia|done|].
  split; [done|]. split; [apply batch_commands_length|]. split.
  - apply Forall_fmap, Forall_forall. intros i _. apply batch_command_size.
  - rewrite batch_starts_0, batch_records_concat, batch_records_data.
    apply take_ge, ceil_div_spec; [lia|done].
Qed.

(** Whatever [upsert] throws is an [upsert_failed] error whose details
    are another [upsert_failed] error, the one of the inner [catch],
    and only that one holds the value the client threw. *)
Lemma upsert_thrown_shape params st thrown :
  (upsert send bucket params st).1 = Threw thrown →
  ∃ error,
    (issue_in_order send (batch_commands 10 params) (world st)).1.2 = Some error
    ∧ thrown = StoreError (upsert_outer_error params error)
    ∧ details (upsert_outer_error params error)
      = Some (StoreError (upsert_inner_error params error))
    ∧ details (upsert_inner_error params error) = Some error.
Proof.
  intros Hthrow.
  pose proof (upsert_batched_run send bucket 10 params st ltac:(lia)) as H.
  destruct (issue_in_order _ _ _) as [[issued failure] w].
  destruct H as (Hout & _). unfold upsert, BATCH_SIZE in Hthrow.
  rewrite Hout in Hthrow.
  destruct failure as [error|]; simpl in Hthrow; [|done].
  exists error. by simplify_eq.
Qed.

(** C7: when the writes of the chunks before chunk k have succeeded one
    after the other and the write of chunk k fails, the call throws an
    upsert_failed error whose message names the index, the commands it
    has handed to the client are the PutVectors commands of chunks
    0..k in that order and nothing else (no later chunk, no delete),
    and the service is left as the failed write left it. *)
Theorem upsert_aborts_at_first_failed_chunk params st k command wk error w' :
  batch_commands 10 params !! k = Some command →
  issue_in_order send (take k (batch_commands 10 params)) (world st)
    = (take k (batch_commands 10 params), None, wk) →
  send command wk = (inl error, w') →
  let r := upsert send bucket params st in
  (∃ err rest,
     r.1 = Threw (StoreError err)
     ∧ code err = "upsert_failed"
     ∧ message err
       = "Failed to upsert vectors to index " ++ upsert_indexName params ++ rest)
  ∧ calls r.2 = (calls st ++ take (S k) (batch_commands 10 params))%list
  ∧ Forall (λ c, is_PutVectors c = true) (take (S k) (batch_commands 10 params))
  ∧ world r.2 = w'.
Proof.
  intros Hk Hbefore Hfail r. subst r.
  pose proof (upsert_batched_run send bucket 10 params st ltac:(lia)) as H.
  rewrite (issue_in_order_fails_at send _ k command _ wk error w' Hk Hbefore Hfail)
    in H.
  destruct H as (Hout & Hw & Hcalls). unfold upsert, BATCH_SIZE.
  rewrite Hout, Hw, Hcalls. split; [|split; [done|split; [|done]]].
  - simpl. by eexists _, _.
  - apply Forall_take, Forall_fmap, Forall_forall. by intros i _.
Qed.

End UpsertClaims.

(** C7 at 25 embeddings, the second chunk failing. *)
Lemma upsert_aborts_at_first_failed_chunk_witness :
  let params := docs_without_ids 25 in
  let r := upsert Scripted.send "bucket" params
             (Scripted.start [Scripted.ok; inl boom]) in
  (∃ err rest,
     r.1 = Threw (StoreError err)
     ∧ code err = "upsert_failed"
     ∧ message err = "Failed to upsert vectors to index " ++ "docs" ++ rest)
  ∧ calls r.2
    = ([] ++ take 2 (batch_command "bucket" 10 params
                      <$> batch_starts 10 (length (vectors params)) 0))%list
  ∧ Forall (λ c, is_PutVectors c = true)
      (take 2 (batch_command "bucket" 10 params
                 <$> batch_starts 10 (length (vectors params)) 0))
  ∧ world r.2 = [].
Proof.
  apply (upsert_aborts_at_first_failed_chunk Scripted.send "bucket"
           (docs_without_ids 25) (Scripted.start [Scripted.ok; inl boom])
           1 (batch_command "bucket" 10 (docs_without_ids 25) 10)
           [inl boom] boom []); reflexivity.
Defined.

(** C4 as stated fails: 11 embeddings, the first write failing, and the
    call has issued one remote write, not ceil(11/10) = 2. *)
Lemma upsert_failed_first_chunk_issues_one_call :
  let params := docs_without_ids 11 in
  let r := upsert Scripted.send "bucket" params (Scripted.start [inl boom]) in
  10 < length (vectors params)
  ∧ length (calls r.2) = 1
  ∧ length (calls r.2) ≠ ceil_div (length (vectors params)) 10.
Proof. vm_compute. repeat split; [lia|done]. Qed.

(** C4 as amended, at 25 embeddings and a service that accepts them. *)
Lemma upsert_issues_ceil_batches_witness :
  let params := docs_without_ids 25 in
  let r := upsert Scripted.send "bucket" params (Scripted.start []) in
  ∃ issued,
    calls r.2 = ([] ++ issued)%list
    ∧ length issued = ceil_div (length (vectors params)) 10
    ∧ Forall (λ c, ∃ records,
                c = PutVectorsCommand "bucket" (upsert_indexName params) records
                ∧ length records ≤ 10) issued
    ∧ put_data <$> concat (put_vectors_of <$> issued) = vectors params.
Proof.
  apply (upsert_issues_ceil_batches Scripted.send "bucket"
           (docs_without_ids 25) (Scripted.start []) []).
  reflexivity.
Defined.

Example generated_key_24 : "vector_" ++ Js.template_nat 24 = "vector_24".
Proof. reflexivity. Qed.

(** C1 fails on the code: 25 embeddings and no ids, every write accepted.
    The three writes (10, 10 and 5 records) carry the keys vector_0 ...
    vector_24, and the call returns the empty array. *)
Lemma upsert_25_without_ids_returns_no_ids :
  let r := upsert Scripted.send "bucket" (docs_without_ids 25)
             (Scripted.start []) in
  r.1 = Returned []
  ∧ length <$> (put_vectors_of <$> calls r.2) = [10; 10; 5]
  ∧ put_key <$> concat (put_vectors_of <$> calls r.2)
    = (λ i, "vector_" ++ Js.template_nat i) <$> seq 0 25.
Proof. vm_compute. done. Qed.

(** C6 fails on the code for upsert: one embedding, the write failing
    with [boom].  The error the caller receives has as details the
    [VectorStoreError] of the inner [catch], and [boom] is the details
    of that one. *)
Lemma upsert_failure_is_wrapped_twice :
  let r := upsert Scripted.send "bucket" (docs_without_ids 1)
             (Scripted.start [inl boom]) in
  let inner :=
    mkVectorStoreError "Failed to upsert vectors to index docs: boom"
      "upsert_failed" (Some boom) in
  let outer :=
    mkVectorStoreError
      "Failed to upsert vectors to index docs: Failed to upsert vectors to index docs: boom"
      "upsert_failed" (Some (StoreError inner)) in
  r.1 = Threw (StoreError outer)
  ∧ details outer ≠ Some boom
  ∧ length (calls r.2) = 1.
Proof. vm_compute. done. Qed.

(** ** query *)

Section QueryClaims.

Context {World : Type}.
Variable send : Command → World → (Thrown + Response) * World.
Variable bucket : string.

(** The one remote call of [query], and what comes back from it. *)
Lemma query_run params st :
  query send bucket params st
  = let command := query_command bucket params in
    let '(reply, w) := send command (world st) in
    match reply with
    | inr response =>
        (Returned (to_QueryResult params
                     <$> List.filter (minScore_filter params) (candidates response)),
         sent command w st)
    | inl error =>
        (Threw (StoreError (mkVectorStoreError
           ("Failed to query index " ++ query_indexName params ++ ": "
              ++ error_text error)
           "query_failed" (Some error))),
         sent command w st)
    end.
Proof. unfold query. by rewrite try_send_run. Qed.

Lemma query_answered params st response w :
  send (query_command bucket params) (world st) = (inr response, w) →
  (query send bucket params st).1
  = Returned (to_QueryResult params
                <$> List.filter (minScore_filter params) (candidates response)).
Proof. intros H. rewrite query_run. cbn zeta. by rewrite H. Qed.

(** C8: in a query call that the service answers, every returned
    result comes from a candidate of the response, and when that
    candidate reports a distance d the result's score is 1 - d (the
    binary64 subtraction the code performs); conversely every candidate
    with a distance d that the minScore filter keeps has a result with
    score 1 - d. *)
Theorem query_score_is_one_minus_distance params st response w :
  send (query_command bucket params) (world st) = (inr response, w) →
  ∃ results,
    (query send bucket params st).1 = Returned results
    ∧ (∀ i result, results !! i = Some result →
        ∃ c, List.filter (minScore_filter params) (candidates response) !! i
               = Some c
             ∧ c ∈ candidates response
             ∧ id result = key c
             ∧ ∀ d, distance c = Some d → score result = (1 - d)%float)
    ∧ (∀ c d, c ∈ candidates response → distance c = Some d →
         minScore_filter params c = true →
         ∃ result, result ∈ results
                   ∧ id result = key c
                   ∧ score result = (1 - d)%float).
Proof.
  intros H. eexists. split; [by eapply query_answered|]. split.
  - intros i result. rewrite list_lookup_fmap. intros Hi.
    destruct (List.filter _ _ !! i) as [c|] eqn:Hc; [|done].
    simpl in Hi. simplify_eq. exists c. split; [done|]. split.
    + by apply list_elem_of_lookup_2, elem_of_filter in Hc as [? _].
    + split; [done|]. intros d Hd. simpl. by rewrite Hd.
  - intros c d Hc Hd Hkeep. exists (to_QueryResult params c). split.
    + apply list_elem_of_fmap. exists c. split; [done|].
      by apply elem_of_filter.
    + split; [done|]. simpl. by rewrite Hd.
Qed.

(** C3: in a query call with minScore = s that the service answers,
    every returned result that comes from a candidate with a distance
    has a score (1 - d) that is not below s, and every candidate of the
    response without a distance is among the candidates the results
    are made from. *)
Theorem query_minScore_filter params st s response w :
  minScore params = Some s →
  send (query_command bucket params) (world st) = (inr response, w) →
  ∃ survivors,
    (query send bucket params st).1
    = Returned (to_QueryResult params <$> survivors)
    ∧ (∀ c, c ∈ survivors →
         c ∈ candidates response
         ∧ ∀ d, distance c = Some d →
             score (to_QueryResult params c) = (1 - d)%float
             ∧ Js.ltb (score (to_QueryResult params c)) s = false)
    ∧ (∀ c, c ∈ candidates response → distance c = None → c ∈ survivors).
Proof.
  intros Hs H. eexists. split; [by eapply query_answered|]. split.
  - intros c [Hc Hkeep]%elem_of_filter. split; [done|]. intros d Hd.
    unfold minScore_filter in Hkeep. rewrite Hs, Hd in Hkeep.
    simpl. rewrite Hd. split; [done|]. by apply geb_not_ltb.
  - intros c Hc Hd. apply elem_of_filter. split; [done|].
    unfold minScore_filter. by rewrite Hs, Hd.
Qed.

(** C9: in a query call that the service answers, the results are the
    images, in order, of a subsequence of the response's candidates; in
    particular the ids returned are a subsequence of the candidates'
    keys. *)
Theorem query_results_are_a_subsequence params st response w :
  send (query_command bucket params) (world st) = (inr response, w) →
  ∃ survivors,
    (query send bucket params st).1
    = Returned (to_QueryResult params <$> survivors)
    ∧ survivors `sublist_of` candidates response
    ∧ id <$> (to_QueryResult params <$> survivors)
      `sublist_of` key <$> candidates response.
Proof.
  intros H. eexists. split; [by eapply query_answered|].
  split; [apply filter_sublist|].
  rewrite <- list_fmap_compose.
  apply (fmap_sublist key), filter_sublist.
Qed.

(** C10: in a query call that the service answers, a candidate
    without a distance is returned, with score 0, whatever minScore
    is. *)
Theorem query_candidate_without_distance_scores_zero params st response w c :
  send (query_command bucket params) (world st) = (inr response, w) →
  c ∈ candidates response →
  distance c = None →
  ∃ results result,
    (query send bucket params st).1 = Returned results
    ∧ result ∈ results
    ∧ result = to_QueryResult params c
    ∧ id result = key c
    ∧ score result = 0%float.
Proof.
  intros H Hc Hd. eexists _, (to_QueryResult params c).
  split; [by eapply query_answered|]. split.
  - apply list_elem_of_fmap. exists c. split; [done|].
    apply elem_of_filter. split; [done|].
    unfold minScore_filter. rewrite Hd. by destruct (minScore params).
  - split; [done|]. split; [done|]. simpl. by rewrite Hd.
Qed.

End QueryClaims.

Example query_at_least_half :
  (query Scripted.send "bucket" at_least_half answered).1
  = Returned [ {| id := "a"; score := 0.75%float; metadata := []; vector := None |};
               {| id := "c"; score := 0%float; metadata := []; vector := None |} ].
Proof. reflexivity. Qed.

Lemma query_score_is_one_minus_distance_witness :
  ∃ results,
    (query Scripted.send "bucket" at_least_half answered).1 = Returned results
    ∧ (∀ i result, results !! i = Some result →
        ∃ c, List.filter (minScore_filter at_least_half)
               (candidates three_candidates) !! i = Some c
             ∧ c ∈ candidates three_candidates
             ∧ id result = key c
             ∧ ∀ d, distance c = Some d → score result = (1 - d)%float)
    ∧ (∀ c d, c ∈ candidates three_candidates → distance c = Some d →
         minScore_filter at_least_half c = true →
         ∃ result, result ∈ results
                   ∧ id result = key c
                   ∧ score result = (1 - d)%float).
Proof.
  apply (query_score_is_one_minus_distance Scripted.send "bucket"
           at_least_half answered three_candidates []).
  reflexivity.
Defined.

Lemma query_minScore_filter_witness :
  ∃ survivors,
    (query Scripted.send "bucket" at_least_half answered).1
    = Returned (to_QueryResult at_least_half <$> survivors)
    ∧ (∀ c, c ∈ survivors →
         c ∈ candidates three_candidates
         ∧ ∀ d, distance c = Some d →
             score (to_QueryResult at_least_half c) = (1 - d)%float
             ∧ Js.ltb (score (to_QueryResult at_least_half c)) 0.5%float = false)
    ∧ (∀ c, c ∈ candidates three_candidates → distance c = None → c ∈ survivors).
Proof.
  apply (query_minScore_filter Scripted.send "bucket"
           at_least_half answered 0.5%float three_candidates []);
    reflexivity.
Defined.

Lemma query_results_are_a_subsequence_witness :
  ∃ survivors,
    (query Scripted.send "bucket" at_least_half answered).1
    = Returned (to_QueryResult at_least_half <$> survivors)
    ∧ survivors `sublist_of` candidates three_candidates
    ∧ id <$> (to_QueryResult at_least_half <$> survivors)
      `sublist_of` key <$> candidates three_candidates.
Proof.
  apply (query_results_are_a_subsequence Scripted.send "bucket"
           at_least_half answered three_candidates []).
  reflexivity.
Defined.

(** C10 at minScore = 0.5: the candidate without a distance comes back
    with score 0. *)
Lemma query_candidate_without_distance_scores_zero_witness :
  ∃ results result,
    (query Scripted.send "bucket" at_least_half answered).1 = Returned results
    ∧ result ∈ results
    ∧ result = to_QueryResult at_least_half unranked
    ∧ id result = key unranked
    ∧ score result = 0%float.
Proof.
  apply (query_candidate_without_distance_scores_zero Scripted.send "bucket"
           at_least_half answered three_candidates [] unranked).
  - reflexivity.
  - apply list_elem_of_In. simpl. auto.
  - reflexivity.
Defined.

(** ** updateVector and the one-call methods *)

Section FacadeClaims.

Context {World : Type}.
Variable send : Command → World → (Thrown + Response) * World.
Variable bucket : string.

(** Without a vector, [updateVector] hands nothing to the client; the
    guard's error is thrown inside the method's own [try], so what the
    caller receives is the [update_vector_failed] error of the [catch],
    with the guard's error as its details. *)
Lemma updateVector_without_vector params st :
  update_vector (update params) = None →
  updateVector send bucket params st
  = (Threw (StoreError (mkVectorStoreError
       ("Failed to update vector " ++ update_id params ++ " in index "
          ++ update_indexName params ++ ": " ++ message update_guard_error)
       "update_vector_failed" (Some (StoreError update_guard_error)))),
     st).
Proof. intros H. unfold updateVector. run. by rewrite H. Qed.

(** [validateExistingIndex] throws its local error outside any [try]:
    the caller receives [index_mismatch] itself. *)
Lemma validateExistingIndex_mismatch indexName dim metric st response w :
  send (GetIndexCommand bucket indexName) (world st) = (inr response, w) →
  resp_index response = None →
  PrimFloat.eqb 0%float dim = false →
  (validateExistingIndex send bucket indexName dim metric st).1
  = Threw (StoreError (mkVectorStoreError
      ("Index " ++ indexName ++ " already exists with different dimension or metric")
      "index_mismatch" None)).
Proof.
  intros H Hidx Hdim. unfold validateExistingIndex, bind, describeIndex.
  rewrite try_send_run. simpl. rewrite H, Hidx. simpl. by rewrite Hdim.
Qed.

Ltac one_call H :=
  intros H; unfold wrapped_once;
  first [ rewrite try_send_run
        | rewrite (try_send_run send _ (λ _, tt)) ];
  rewrite H; by eexists.

Lemma createIndex_failure params st error w :
  send (CreateIndexCommand bucket (create_indexName params) "float32"
          (create_dimension params) (Js.or_object (create_metric params) cosine))
    (world st) = (inl error, w) →
  wrapped_once "index_creation_failed" error (createIndex send bucket params st).1.
Proof. unfold createIndex. one_call H. Qed.

Lemma query_failure params st error w :
  send (query_command bucket params) (world st) = (inl error, w) →
  wrapped_once "query_failed" error (query send bucket params st).1.
Proof. unfold query. one_call H. Qed.

Lemma describeIndex_failure params st error w :
  send (GetIndexCommand bucket (describe_indexName params)) (world st)
    = (inl error, w) →
  wrapped_once "describe_failed" error (describeIndex send bucket params st).1.
Proof. unfold describeIndex. one_call H. Qed.

Lemma deleteIndex_failure params st error w :
  send (DeleteIndexCommand bucket (deleteIndex_indexName params)) (world st)
    = (inl error, w) →
  wrapped_once "delete_index_failed" error (deleteIndex send bucket params st).1.
Proof. unfold deleteIndex. one_call H. Qed.

Lemma listIndexes_failure st error w :
  send (ListIndexesCommand bucket) (world st) = (inl error, w) →
  wrapped_once "list_indexes_failed" error (listIndexes send bucket st).1.
Proof. unfold listIndexes. one_call H. Qed.

Lemma deleteVector_failure params st error w :
  send (DeleteVectorsCommand bucket (delete_indexName params) [delete_id params])
    (world st) = (inl error, w) →
  wrapped_once "delete_vector_failed" error (deleteVector send bucket params st).1.
Proof. unfold deleteVector. one_call H. Qed.

Lemma updateVector_failure params st v error w :
  update_vector (update params) = Some v →
  send (PutVectorsCommand bucket (update_indexName params)
          [ {| put_key := update_id params;
               put_data := v;
               put_metadata := update_metadata (update params) |} ])
    (world st) = (inl error, w) →
  wrapped_once "update_vector_failed" error (updateVector send bucket params st).1.
Proof. intros Hv. unfold updateVector. rewrite Hv. one_call H. Qed.

End FacadeClaims.

(** C2 fails on the code: a metadata-only update, on a service whose
    next reply would be a success.  No remote call is made, and the
    error the caller receives has the code update_vector_failed; the
    update_requires_vector_data error is its details. *)
Lemma updateVector_metadata_only_is_update_vector_failed :
  let r := updateVector Scripted.send "bucket" metadata_only
             (Scripted.start [Scripted.ok]) in
  r.1 = Threw (StoreError (mkVectorStoreError
          "Failed to update vector a in index docs: Vector data is required for update operation in S3 Vectors"
          "update_vector_failed"
          (Some (StoreError (mkVectorStoreError
             "Vector data is required for update operation in S3 Vectors"
             "update_requires_vector_data" None)))))
  ∧ calls r.2 = []
  ∧ world r.2 = [Scripted.ok].
Proof. vm_compute. done. Qed.

(** * Further properties of the adapter *)

(** ** More on numbers *)

Lemma SFcompare_refl x : x ≠ S754_nan → SFcompare x x = Some Eq.
Proof.
  destruct x as [[]|[]| |[] m e]; simpl; try congruence; intros _.
  all: rewrite Z.compare_refl;
    change (Pos.compare_cont Eq m m) with (Pos.compare m m);
    by rewrite Pos.compare_refl.
Qed.

Lemma is_nan_spec x : is_nan x = true → Prim2SF x = S754_nan.
Proof.
  unfold is_nan. rewrite FloatAxioms.eqb_spec. unfold SFeqb. intros H.
  destruct (Prim2SF x) eqn:E; try reflexivity.
  all: rewrite SFcompare_refl in H by congruence; discriminate.
Qed.

Lemma geb_nan_r x s : is_nan s = true → Js.geb x s = false.
Proof.
  intros H. unfold Js.geb. by rewrite leb_spec, (is_nan_spec s H).
Qed.

Lemma geb_nan_l x s : is_nan x = true → Js.geb x s = false.
Proof.
  intros H. unfold Js.geb. rewrite leb_spec, (is_nan_spec x H). unfold SFleb.
  by destruct (Prim2SF s).
Qed.

Lemma sub_nan_r x d : is_nan d = true → is_nan (x - d)%float = true.
Proof.
  intros H. unfold is_nan at 1. rewrite FloatAxioms.eqb_spec, sub_spec, (is_nan_spec d H).
  unfold SF64sub, SFsub. by destruct (Prim2SF x).
Qed.

Lemma eqb_nan_r x d : is_nan d = true → PrimFloat.eqb x d = false.
Proof.
  intros H. rewrite FloatAxioms.eqb_spec, (is_nan_spec d H). unfold SFeqb.
  by destruct (Prim2SF x).
Qed.

Lemma SFleb_trans x y z :
  SFleb x y = true → SFleb y z = true → SFleb x z = true.
Proof.
  unfold SFleb.
  destruct x as [[]|[]| |[] m1 e1], y as [[]|[]| |[] m2 e2],
           z as [[]|[]| |[] m3 e3]; simpl; try congruence.
  all: change (Pos.compare_cont Eq ?a ?b) with (Pos.compare a b).
  all: destruct (Z.compare_spec e1 e2), (Z.compare_spec e2 e3),
         (Z.compare_spec e1 e3); try lia; try congruence; subst.
  all: destruct (Pos.compare_spec m1 m2), (Pos.compare_spec m2 m3),
         (Pos.compare_spec m1 m3); simpl; try lia; try congruence.
Qed.

(** [x >= s2] and [s2 >= s1] give [x >= s1]. *)
Lemma geb_trans x s2 s1 :
  Js.geb x s2 = true → Js.geb s2 s1 = true → Js.geb x s1 = true.
Proof.
  unfold Js.geb. rewrite !leb_spec. intros H2 H1. by eapply SFleb_trans.
Qed.

(** [x || d] on numbers is never [NaN] when [d] is not. *)
Lemma or_number_not_nan x d :
  is_nan d = false → is_nan (Js.or_number x d) = false.
Proof.
  intros Hd. destruct x as [v|]; simpl; [|done].
  unfold Js.truthy_number.
  destruct (PrimFloat.eqb v 0), (is_nan v) eqn:Hv; simpl; by rewrite ?Hv.
Qed.

(** ** More on lists *)

Lemma filter_all {A} (f : A → bool) (l : list A) :
  (∀ x, x ∈ l → f x = true) → List.filter f l = l.
Proof.
  induction l as [|x l IH]; intros H; simpl; [done|].
  rewrite (H x) by left. f_equal. apply IH. intros y Hy. apply H. by right.
Qed.

Lemma filter_agree {A} (f g : A → bool) (l : list A) :
  (∀ x, x ∈ l → f x = g x) → List.filter f l = List.filter g l.
Proof.
  induction l as [|x l IH]; intros H; simpl; [done|].
  rewrite (H x) by left. rewrite IH; [done|]. intros y Hy. apply H. by right.
Qed.

Lemma filter_sublist_of_weaker {A} (f g : A → bool) (l : list A) :
  (∀ x, x ∈ l → f x = true → g x = true) →
  List.filter f l `sublist_of` List.filter g l.
Proof.
  induction l as [|x l IH]; intros H; simpl; [constructor|].
  assert (List.filter f l `sublist_of` List.filter g l) as IH'.
  { apply IH. intros y Hy. apply H. by right. }
  destruct (f x) eqn:Hf.
  - rewrite (H x) by (done || left). by constructor.
  - destruct (g x); [by constructor|done].
Qed.

(** ** More on the upsert loop *)

Section UpsertTrace.

Context {World : Type}.
Variable send : Command → World → (Thrown + Response) * World.
Variable bucket : string.

Local Abbreviation batch_commands b params :=
  (batch_command bucket b params <$> batch_starts b (length (vectors params)) 0).

Lemma batch_starts_below b n i :
  0 < b → i ∈ batch_starts b n 0 → i < n.
Proof.
  intros Hb. rewrite batch_starts_0.
  intros (j & -> & Hj)%list_elem_of_fmap.
  apply list_elem_of_lookup in Hj as [k Hk].
  apply lookup_seq in Hk as [-> Hlt].
  destruct (decide (n ≤ (0 + k) * b)) as [Hle|]; [|lia].
  apply (ceil_div_spec n b (0 + k) Hb) in Hle. lia.
Qed.

Lemma issue_in_order_starts c cmds w :
  ∃ rest, (issue_in_order send (c :: cmds) w).1.1 = c :: rest.
Proof.
  simpl. destruct (send c w) as [[error|response] w1]; [by eexists|].
  destruct (issue_in_order send cmds w1) as [[issued failure] w2]. by eexists.
Qed.

(** The commands a call hands over are those of its first [n] batches,
    for some [n] up to the number of batches; all of them when the
    call returns, and at least one when there is an embedding. *)
Lemma upsert_batched_trace b params st :
  0 < b →
  let r := upsert_batched send bucket b params st in
  ∃ n,
    n ≤ ceil_div (length (vectors params)) b
    ∧ calls r.2
      = (calls st
           ++ (batch_command bucket b params <$> ((λ j, j * b) <$> seq 0 n)))%list
    ∧ (∀ l, r.1 = Returned l → n = ceil_div (length (vectors params)) b)
    ∧ (vectors params ≠ [] → 0 < n).
Proof.
  intros Hb r. subst r.
  pose proof (upsert_batched_run send bucket b params st Hb) as H.
  pose proof (issue_in_order_prefix send (batch_commands b params) (world st))
    as [m Hm].
  pose proof (issue_in_order_complete send (batch_commands b params) (world st))
    as Hc.
  assert (vectors params ≠ [] →
          (issue_in_order send (batch_commands b params) (world st)).1.1 ≠ [])
    as Hne.
  { intros Hv. rewrite batch_starts_step; [|done|].
    - cbn [fmap list_fmap].
      by destruct (issue_in_order_starts
                     (batch_command bucket b params 0)
                     (batch_command bucket b params
                        <$> batch_starts b (length (vectors params)) (0 + b))
                     (world st)) as [rest ->].
    - destruct (vectors params); [done|simpl; lia]. }
  destruct (issue_in_order _ _ _) as [[issued failure] w].
  destruct H as (Hout & _ & Hcalls). simpl in Hm, Hc, Hne.
  rewrite batch_starts_0, <- !fmap_take, take_seq in Hm.
  exists (m `min` ceil_div (length (vectors params)) b).
  split; [lia|]. split; [by rewrite Hcalls, Hm|]. split.
  - intros l Hret. rewrite Hout in Hret.
    destruct failure; simpl in Hret; [done|].
    specialize (Hc eq_refl). rewrite Hc in Hm.
    apply (f_equal length) in Hm.
    rewrite batch_commands_length, !length_fmap, length_seq in Hm. lia.
  - intros Hv. specialize (Hne Hv). subst issued.
    destruct (m `min` ceil_div (length (vectors params)) b); [done|lia].
Qed.

End UpsertTrace.

(** ** upsert: the generated keys *)

Section GeneratedKeys.

Context {World : Type}.
Variable send : Command → World → (Thrown + Response) * World.
Variable bucket : string.

Lemma generated_keys params l :
  ids params = None →
  put_key <$> imap (batch_record params 0) l
  = (λ i, "vector_" ++ Js.template_nat i) <$> seq 0 (length l).
Proof.
  intros Hids. apply list_eq. intros i.
  rewrite !list_lookup_fmap, list_lookup_imap.
  destruct (l !! i) as [v|] eqn:Hv.
  - rewrite lookup_seq_lt by by eapply lookup_lt_Some.
    simpl. unfold batch_record. by rewrite Hids.
  - by rewrite lookup_seq_ge by by apply lookup_ge_None.
Qed.

(** C5: with ids omitted, whatever the (positive) batch size, the call
    ends (it returns or throws), and the records of its remote write
    requests, taken in the order they were handed over, carry the keys
    vector_0, vector_1, ... in that order: the i-th record has the i-th
    input embedding and the key vector_i.  The records of the first
    batch at least are handed over; all N are when the call returns; and
    on a service that accepts every PutVectors command the call returns,
    so the keys written are vector_0 ... vector_{N-1}.  [upsert] is the
    instance at batch size 10. *)
Theorem upsert_generated_keys_follow_input_position b params st :
  0 < b →
  ids params = None →
  let r := upsert_batched send bucket b params st in
  upsert send bucket params = upsert_batched send bucket 10 params
  ∧ r.1 ≠ OutOfFuel
  ∧ ∃ issued,
      calls r.2 = (calls st ++ issued)%list
      ∧ (∀ i record,
           concat (put_vectors_of <$> issued) !! i = Some record →
           put_key record = "vector_" ++ Js.template_nat i
           ∧ vectors params !! i = Some (put_data record))
      ∧ put_key <$> concat (put_vectors_of <$> issued)
        = (λ i, "vector_" ++ Js.template_nat i)
            <$> seq 0 (length (concat (put_vectors_of <$> issued)))
      ∧ b `min` length (vectors params)
        ≤ length (concat (put_vectors_of <$> issued))
      ∧ (∀ l, r.1 = Returned l →
           length (concat (put_vectors_of <$> issued))
           = length (vectors params))
      ∧ ((∀ c w0, is_PutVectors c = true →
                  ∃ response w1, send c w0 = (inr response, w1)) →
         r.1 = Returned []
         ∧ put_key <$> concat (put_vectors_of <$> issued)
           = (λ i, "vector_" ++ Js.template_nat i)
               <$> seq 0 (length (vectors params))).
Proof.
  intros Hb Hids r. split; [done|]. subst r.
  split; [by apply upsert_batched_total|].
  destruct (upsert_batched_trace send bucket b params st Hb)
    as (n & Hn & Hcalls & Hret & Hpos).
  eexists. split; [exact Hcalls|].
  rewrite batch_records_concat.
  assert (∀ l, (upsert_batched send bucket b params st).1 = Returned l →
               take (n * b) (vectors params) = vectors params) as Hall.
  { intros l Hl. rewrite (Hret l Hl). by apply take_ge, ceil_div_spec. }
  split; [|split; [|split; [|split]]].
  - intros i record. rewrite list_lookup_imap. intros Hi.
    destruct (take _ (vectors params) !! i) as [v|] eqn:Hv; [|done].
    simpl in Hi. simplify_eq. apply lookup_take_Some in Hv as [Hv _].
    split; [|done]. unfold batch_record. by rewrite Hids.
  - rewrite length_imap. by apply generated_keys.
  - rewrite length_imap, length_take.
    destruct (vectors params) as [|v vs] eqn:Hvs; [simpl; lia|].
    specialize (Hpos ltac:(done)). nia.
  - intros l Hl. by rewrite (Hall l Hl), length_imap.
  - intros Hok.
    pose proof (upsert_batched_run send bucket b params st Hb) as H.
    pose proof (issue_in_order_all_accepted send
                  (batch_command bucket b params
                     <$> batch_starts b (length (vectors params)) 0)
                  (world st)) as Hnone.
    destruct (issue_in_order _ _ _) as [[issued failure] w].
    destruct H as (Hout & _). simpl in Hnone.
    rewrite Hnone in Hout.
    + simpl in Hout. rewrite Hids in Hout. simpl in Hout.
      split; [done|]. rewrite (Hall _ Hout). by apply generated_keys.
    + intros c w0 (i & -> & _)%list_elem_of_fmap. by apply Hok.
Qed.

End GeneratedKeys.

(** C5 at 25 embeddings in batches of 7. *)
Lemma upsert_generated_keys_follow_input_position_witness :
  let params := docs_without_ids 25 in
  let r := upsert_batched Scripted.send "bucket" 7 params (Scripted.start []) in
  upsert Scripted.send "bucket" params
  = upsert_batched Scripted.send "bucket" 10 params
  ∧ r.1 ≠ OutOfFuel
  ∧ ∃ issued,
      calls r.2 = ([] ++ issued)%list
      ∧ (∀ i record,
           concat (put_vectors_of <$> issued) !! i = Some record →
           put_key record = "vector_" ++ Js.template_nat i
           ∧ vectors params !! i = Some (put_data record))
      ∧ put_key <$> concat (put_vectors_of <$> issued)
        = (λ i, "vector_" ++ Js.template_nat i)
            <$> seq 0 (length (concat (put_vectors_of <$> issued)))
      ∧ 7 `min` length (vectors params)
        ≤ length (concat (put_vectors_of <$> issued))
      ∧ (∀ l, r.1 = Returned l →
           length (concat (put_vectors_of <$> issued))
           = length (vectors params))
      ∧ ((∀ c w0, is_PutVectors c = true →
                  ∃ response w1, Scripted.send c w0 = (inr response, w1)) →
         r.1 = Returned []
         ∧ put_key <$> concat (put_vectors_of <$> issued)
           = (λ i, "vector_" ++ Js.template_nat i)
               <$> seq 0 (length (vectors params))).
Proof.
  apply (upsert_generated_keys_follow_input_position Scripted.send "bucket"
           7 (docs_without_ids 25) (Scripted.start [])); [lia|reflexivity].
Defined.

(** ** upsert: empty input, bounds, partial writes, keys and metadata *)

Section UpsertMore.

Context {World : Type}.
Variable send : Command → World → (Thrown + Response) * World.
Variable bucket : string.

(** The records of a call, in the order they were handed over. *)
Local Abbreviation records_of issued := (concat (put_vectors_of <$> issued)).

Lemma upsert_records params st :
  let r := upsert send bucket params st in
  ∃ issued n,
    calls r.2 = (calls st ++ issued)%list
    ∧ records_of issued
      = imap (batch_record params 0) (take (n * 10) (vectors params))
    ∧ (∀ l, r.1 = Returned l → take (n * 10) (vectors params) = vectors params).
Proof.
  intros r. subst r.
  destruct (upsert_batched_trace send bucket 10 params st ltac:(lia))
    as (n & Hn & Hcalls & Hret & _).
  eexists _, n. split; [exact Hcalls|]. split.
  - apply batch_records_concat.
  - intros l Hl. rewrite (Hret l Hl).
    apply take_ge, ceil_div_spec; [lia|done].
Qed.

(** With no embeddings the loop body never runs: nothing is handed to
    the client, nothing is logged, and the call returns [ids || []]. *)
Theorem upsert_without_vectors_calls_nothing params st :
  vectors params = [] →
  upsert send bucket params st = (Returned (Js.or_object (ids params) []), st).
Proof.
  intros H. unfold upsert, upsert_batched, try_catch, bind.
  rewrite upsert_loop_exit; [done|]. rewrite H. simpl. lia.
Qed.

(** Returning or throwing, a call makes at most ceil(N/10) remote calls,
    at least one when there is an embedding, and each is a PutVectors on
    the store's bucket and the given index with 1 to 10 records. *)
Theorem upsert_calls_are_bounded_writes params st :
  let r := upsert send bucket params st in
  ∃ issued,
    calls r.2 = (calls st ++ issued)%list
    ∧ length issued ≤ ceil_div (length (vectors params)) 10
    ∧ (vectors params ≠ [] → 1 ≤ length issued)
    ∧ Forall (λ c, ∃ records,
                c = PutVectorsCommand bucket (upsert_indexName params) records
                ∧ 1 ≤ length records ≤ 10) issued.
Proof.
  intros r. subst r.
  destruct (upsert_batched_trace send bucket 10 params st ltac:(lia))
    as (n & Hn & Hcalls & _ & Hpos).
  eexists. split; [exact Hcalls|].
  rewrite !length_fmap, length_seq. split; [done|]. split; [done|].
  apply Forall_fmap, Forall_fmap, Forall_forall. intros j Hj.
  apply list_elem_of_lookup in Hj as [k Hk]. apply lookup_seq in Hk as [-> Hk].
  eexists. split; [done|].
  assert (j' : (0 + k) * 10 < length (vectors params)).
  { destruct (decide (length (vectors params) ≤ (0 + k) * 10)) as [Hle|]; [|lia].
    apply (ceil_div_spec _ 10 (0 + k)) in Hle; lia. }
  simpl. rewrite length_imap. unfold Js.slice.
  rewrite length_take, length_drop. lia.
Qed.

(** Returning or throwing, the embeddings a call has handed over are, in
    order, the first [m] of its input for some [m], all of them when it
    returns: a failed call has written a prefix of the input. *)
Theorem upsert_writes_a_prefix_of_the_input params st :
  let r := upsert send bucket params st in
  ∃ issued m,
    calls r.2 = (calls st ++ issued)%list
    ∧ put_data <$> records_of issued = take m (vectors params)
    ∧ (∀ l, r.1 = Returned l → take m (vectors params) = vectors params).
Proof.
  intros r. destruct (upsert_records params st) as (issued & n & Hc & Hr & Hret).
  exists issued, (n * 10). split; [done|]. split; [|done].
  by rewrite Hr, batch_records_data.
Qed.

(** The record handed over for the i-th embedding of the input carries
    that embedding; its key is the i-th supplied id when that is a
    non-empty string and vector_i otherwise; its metadata is the i-th
    supplied metadata when there is one and the empty object otherwise. *)
Theorem upsert_record_of_position params st :
  let r := upsert send bucket params st in
  ∃ issued,
    calls r.2 = (calls st ++ issued)%list
    ∧ ∀ i record, records_of issued !! i = Some record →
        vectors params !! i = Some (put_data record)
        ∧ (∀ s, ids params ≫= (.!! i) = Some s → s ≠ "" → put_key record = s)
        ∧ (ids params ≫= (.!! i) = None ∨ ids params ≫= (.!! i) = Some "" →
           put_key record = "vector_" ++ Js.template_nat i)
        ∧ (∀ m, upsert_metadata params ≫= (.!! i) = Some m →
             put_metadata record = Some m)
        ∧ (upsert_metadata params ≫= (.!! i) = None →
           put_metadata record = Some []).
Proof.
  intros r. destruct (upsert_records params st) as (issued & n & Hc & Hr & _).
  exists issued. split; [done|]. intros i record. rewrite Hr, list_lookup_imap.
  intros Hi. destruct (take _ (vectors params) !! i) as [v|] eqn:Hv; [|done].
  simpl in Hi. simplify_eq. apply lookup_take_Some in Hv as [Hv _].
  split; [done|].
  assert (put_key (batch_record params 0 i v)
          = Js.or_string (ids params ≫= (.!! i))
              ("vector_" ++ Js.template_nat i)) as -> by done.
  assert (put_metadata (batch_record params 0 i v)
          = Some (@Js.or_object VectorMetadata
                    (upsert_metadata params ≫= (.!! i)) []))
    as -> by done.
  split; [|split; [|split]].
  - intros s -> Hs. by destruct s.
  - by intros [-> | ->].
  - by intros m ->.
  - by intros ->.
Qed.

(** With one non-empty id supplied per embedding, a call that returns
    returns exactly the keys it has written, in order. *)
Theorem upsert_returned_ids_are_the_written_keys params st supplied l :
  ids params = Some supplied →
  length supplied = length (vectors params) →
  Forall (λ s, s ≠ "") supplied →
  (upsert send bucket params st).1 = Returned l →
  ∃ issued,
    calls (upsert send bucket params st).2 = (calls st ++ issued)%list
    ∧ put_key <$> records_of issued = l
    ∧ l = supplied.
Proof.
  intros Hids Hlen Hne Hret.
  destruct (upsert_records params st) as (issued & n & Hc & Hr & Hall).
  exists issued. split; [done|].
  assert (l = supplied) as ->.
  { by eapply upsert_returns_supplied_ids. }
  split; [|done]. rewrite Hr, (Hall _ Hret). apply list_eq. intros i.
  rewrite list_lookup_fmap, list_lookup_imap.
  destruct (vectors params !! i) as [v|] eqn:Hv; simpl.
  - destruct (supplied !! i) as [s|] eqn:Hs.
    + rewrite Hids. simpl. rewrite Hs. simpl.
      rewrite Forall_forall in Hne.
      specialize (Hne s (list_elem_of_lookup_2 _ _ _ Hs)). by destruct s.
    + apply lookup_lt_Some in Hv. apply lookup_ge_None in Hs. lia.
  - symmetry. apply lookup_ge_None. apply lookup_ge_None in Hv. lia.
Qed.

(** Where the supplied ids have an empty string or stop short, a call
    that returns has written the embedding under vector_i, and the
    array it returns does not hold that key at position i. *)
Theorem upsert_unusable_id_is_replaced_in_the_write params st supplied i l :
  ids params = Some supplied →
  i < length (vectors params) →
  supplied !! i = Some "" ∨ supplied !! i = None →
  (upsert send bucket params st).1 = Returned l →
  l = supplied
  ∧ ∃ issued record,
      calls (upsert send bucket params st).2 = (calls st ++ issued)%list
      ∧ records_of issued !! i = Some record
      ∧ put_key record = "vector_" ++ Js.template_nat i
      ∧ l !! i ≠ Some (put_key record).
Proof.
  intros Hids Hi Hbad Hret.
  assert (l = supplied) as -> by by eapply upsert_returns_supplied_ids.
  split; [done|].
  destruct (upsert_records params st) as (issued & n & Hc & Hr & Hall).
  destruct (lookup_lt_is_Some_2 (vectors params) i Hi) as [v Hv].
  exists issued, (batch_record params 0 i v). split; [done|].
  split; [by rewrite Hr, (Hall _ Hret), list_lookup_imap, Hv|].
  assert (put_key (batch_record params 0 i v) = "vector_" ++ Js.template_nat i)
    as Hkey.
  { unfold batch_record. cbn [put_key Nat.add]. rewrite Hids. simpl.
    by destruct Hbad as [-> | ->]. }
  split; [done|]. rewrite Hkey. by destruct Hbad as [-> | ->].
Qed.

(** Two calls on the same input that both return have handed over the
    same records in the same order, whatever their (positive) batch
    sizes, services and starting states. *)
Theorem upsert_records_do_not_depend_on_batch_size b1 b2 params st1 st2 l1 l2 :
  0 < b1 → 0 < b2 →
  (upsert_batched send bucket b1 params st1).1 = Returned l1 →
  (upsert_batched send bucket b2 params st2).1 = Returned l2 →
  ∃ issued1 issued2,
    calls (upsert_batched send bucket b1 params st1).2 = (calls st1 ++ issued1)%list
    ∧ calls (upsert_batched send bucket b2 params st2).2
      = (calls st2 ++ issued2)%list
    ∧ records_of issued1 = records_of issued2
    ∧ l1 = l2.
Proof.
  intros Hb1 Hb2 Hret1 Hret2.
  destruct (upsert_batched_trace send bucket b1 params st1 Hb1)
    as (n1 & _ & Hc1 & Hn1 & _).
  destruct (upsert_batched_trace send bucket b2 params st2 Hb2)
    as (n2 & _ & Hc2 & Hn2 & _).
  eexists _, _. split; [exact Hc1|]. split; [exact Hc2|]. split.
  - rewrite !batch_records_concat, (Hn1 _ Hret1), (Hn2 _ Hret2).
    rewrite !take_ge; [done| |]; by apply ceil_div_spec.
  - destruct (upsert_batched_returned send bucket b1 params st1 l1 Hb1 Hret1)
      as [-> _].
    by destruct (upsert_batched_returned send bucket b2 params st2 l2 Hb2 Hret2)
      as [-> _].
Qed.

End UpsertMore.

(** ** query: the one call, defaults, thresholds and NaN *)

Section QueryMore.

Context {World : Type}.
Variable send : Command → World → (Thrown + Response) * World.
Variable bucket : string.

(** Answered or not, [query] hands exactly one command to the client: a
    QueryVectors on the store's bucket that asks for distances and
    metadata, with the caller's filter, and with a topK that is the
    caller's when that is a non-zero number and 10 otherwise (so never 0
    and never NaN).  It writes nothing to the console. *)
Theorem query_hands_over_one_command params st :
  let r := query send bucket params st in
  let k := Js.or_number (topK params) 10%float in
  let command :=
    QueryVectorsCommand bucket (query_indexName params) (queryVector params)
      k (filter params) true true in
  calls r.2 = (calls st ++ [command])%list
  ∧ world r.2 = (send command (world st)).2
  ∧ console r.2 = console st
  ∧ Js.truthy_number k = true
  ∧ (topK params = None → k = 10%float)
  ∧ (∀ v, topK params = Some v → Js.truthy_number v = true → k = v).
Proof.
  intros r k command. subst r. rewrite query_run. cbn zeta.
  fold k. change (query_command bucket params) with command.
  destruct (send command (world st)) as [[error|response] w];
    (split; [done|]; split; [done|]; split; [done|]).
  all: subst k; split; [|split].
  all: try (by intros ->).
  all: try (intros v -> Hv; simpl; by rewrite Hv).
  all: destruct (topK params) as [v|]; simpl; [|done];
    by destruct (Js.truthy_number v) eqn:Hv.
Qed.

(** When the one call fails, the caller receives one [query_failed] error
    whose details is the value the client threw and whose message names
    the index and ends with that value's text. *)
Theorem query_remote_failure params st error w :
  send (query_command bucket params) (world st) = (inl error, w) →
  query send bucket params st
  = (Threw (StoreError (mkVectorStoreError
       ("Failed to query index " ++ query_indexName params ++ ": "
          ++ error_text error)
       "query_failed" (Some error))),
     sent (query_command bucket params) w st).
Proof. intros H. rewrite query_run. cbn zeta. by rewrite H. Qed.

(** Without a minScore nothing is filtered: one result per candidate, in
    the order of the response; none when the response has no [vectors]. *)
Theorem query_without_minScore_keeps_every_candidate params st response w :
  minScore params = None →
  send (query_command bucket params) (world st) = (inr response, w) →
  ∃ results,
    (query send bucket params st).1 = Returned results
    ∧ length results = length (candidates response)
    ∧ id <$> results = key <$> candidates response
    ∧ (resp_vectors response = None → results = []).
Proof.
  intros Hmin H. eexists. split; [by eapply query_answered|].
  rewrite filter_all.
  - split; [by rewrite length_fmap|]. split; [by rewrite <- list_fmap_compose|].
    unfold candidates. by intros ->.
  - intros c _. unfold minScore_filter. by rewrite Hmin.
Qed.

(** Each result takes its id from its candidate's key and its metadata
    from the candidate's, the empty object when there is none; it holds
    the candidate's embedding exactly when includeVector is true and the
    candidate has one. *)
Theorem query_result_fields params st response w :
  send (query_command bucket params) (world st) = (inr response, w) →
  ∃ survivors results,
    (query send bucket params st).1 = Returned results
    ∧ survivors `sublist_of` candidates response
    ∧ Forall2
        (λ c result,
           id result = key c
           ∧ (∀ m, cand_metadata c = Some m → metadata result = m)
           ∧ (cand_metadata c = None → metadata result = [])
           ∧ (includeVector params = Some true → vector result = data c)
           ∧ (includeVector params ≠ Some true → vector result = None))
        survivors results.
Proof.
  intros H. eexists _, _. split; [by eapply query_answered|].
  split; [apply filter_sublist|].
  apply Forall2_fmap_r, Forall_Forall2_diag, Forall_forall. intros c _.
  split; [done|]. simpl. repeat split.
  - by intros m ->.
  - by intros ->.
  - by intros ->.
  - by destruct (includeVector params) as [[]|].
Qed.

(** A minScore that is NaN removes every candidate that reports a
    distance: the results are those of the candidates without one. *)
Theorem query_nan_minScore_keeps_only_unranked params st s response w :
  minScore params = Some s →
  is_nan s = true →
  send (query_command bucket params) (world st) = (inr response, w) →
  (query send bucket params st).1
  = Returned (to_QueryResult params
                <$> List.filter without_distance (candidates response)).
Proof.
  intros Hs Hnan H. rewrite (query_answered send bucket params st response w H).
  do 2 f_equal. apply filter_agree. intros c _.
  unfold minScore_filter, without_distance. rewrite Hs.
  destruct (distance c); [|done]. by apply geb_nan_r.
Qed.

(** With a minScore, a candidate whose distance is NaN is removed. *)
Theorem query_nan_distance_is_dropped params st s response w c d :
  minScore params = Some s →
  send (query_command bucket params) (world st) = (inr response, w) →
  distance c = Some d →
  is_nan d = true →
  ∃ survivors,
    (query send bucket params st).1
    = Returned (to_QueryResult params <$> survivors)
    ∧ survivors `sublist_of` candidates response
    ∧ c ∉ survivors.
Proof.
  intros Hs H Hd Hnan. eexists. split; [by eapply query_answered|].
  split; [apply filter_sublist|].
  intros [_ Hkeep]%elem_of_filter. unfold minScore_filter in Hkeep.
  rewrite Hs, Hd in Hkeep. simpl in Hkeep.
  by rewrite geb_nan_l in Hkeep by by apply sub_nan_r.
Qed.

(** Raising minScore only removes results: for the same response, the
    results under the higher threshold are a subsequence of those under
    the lower one. *)
Theorem query_higher_minScore_returns_a_subsequence
    low high st_low st_high s_low s_high response w_low w_high :
  minScore low = Some s_low →
  minScore high = Some s_high →
  Js.geb s_high s_low = true →
  includeVector low = includeVector high →
  send (query_command bucket low) (world st_low) = (inr response, w_low) →
  send (query_command bucket high) (world st_high) = (inr response, w_high) →
  ∃ results_low results_high,
    (query send bucket low st_low).1 = Returned results_low
    ∧ (query send bucket high st_high).1 = Returned results_high
    ∧ results_high `sublist_of` results_low.
Proof.
  intros Hlow Hhigh Hle Hinc Hl Hh. eexists _, _.
  split; [by eapply query_answered|]. split; [by eapply query_answered|].
  assert (to_QueryResult high = to_QueryResult low) as ->.
  { unfold to_QueryResult. by rewrite Hinc. }
  apply fmap_sublist, filter_sublist_of_weaker. intros c _.
  unfold minScore_filter. rewrite Hlow, Hhigh.
  destruct (distance c); [|done]. intros Hc. by eapply geb_trans.
Qed.

End QueryMore.

(** ** The one-call methods *)

Section FacadeMore.

Context {World : Type}.
Variable send : Command → World → (Thrown + Response) * World.
Variable bucket : string.

(** [createIndex] hands exactly one command to the client: a CreateIndex
    on the store's bucket with data type float32 and the metric of the
    call, cosine when none is given.  It returns when the command is
    accepted; otherwise the caller receives one [index_creation_failed]
    error with the thrown value as details and its text in the message. *)
Theorem createIndex_run params st reply w :
  let command :=
    CreateIndexCommand bucket (create_indexName params) "float32"
      (create_dimension params)
      (match create_metric params with Some m => m | None => cosine end) in
  send command (world st) = (reply, w) →
  createIndex send bucket params st
  = (match reply with
     | inr _ => Returned tt
     | inl error =>
         Threw (StoreError (mkVectorStoreError
           ("Failed to create index " ++ create_indexName params ++ ": "
              ++ error_text error)
           "index_creation_failed" (Some error)))
     end,
     sent command w st).
Proof.
  intros command H. unfold createIndex. cbn zeta.
  rewrite (try_send_run send _ (λ _, tt)).
  change (CreateIndexCommand _ _ _ _ _) with command. rewrite H.
  by destruct reply.
Qed.

(** [describeIndex] hands exactly one GetIndex command to the client.  On
    an answer it returns the reported dimension and metric, with 0 for a
    dimension that is missing, zero or NaN and cosine for a missing
    metric; the count is 0 whatever the answer, and the dimension is
    never NaN.  On a failure the caller receives one [describe_failed]
    error with the thrown value as details. *)
Theorem describeIndex_run params st reply w :
  let command := GetIndexCommand bucket (describe_indexName params) in
  send command (world st) = (reply, w) →
  ∃ outcome,
    describeIndex send bucket params st = (outcome, sent command w st)
    ∧ (∀ response, reply = inr response →
         ∃ stats,
           outcome = Returned stats
           ∧ stats_count stats = 0%float
           ∧ stats_dimension stats
             = Js.or_number (resp_index response ≫= dimension) 0%float
           ∧ is_nan (stats_dimension stats) = false
           ∧ (∀ m, resp_index response ≫= distanceMetric = Some m →
                stats_metric stats = m)
           ∧ (resp_index response ≫= distanceMetric = None →
              stats_metric stats = cosine))
    ∧ (∀ error, reply = inl error →
         outcome
         = Threw (StoreError (mkVectorStoreError
             ("Failed to describe index " ++ describe_indexName params ++ ": "
                ++ error_text error)
             "describe_failed" (Some error)))).
Proof.
  intros command H. unfold describeIndex. rewrite try_send_run.
  fold command. rewrite H. destruct reply as [error|response].
  - eexists. split; [done|]. split; [done|]. by intros ? [= ->].
  - eexists. split; [done|]. split; [|done]. intros ? [= <-].
    eexists. split; [done|]. cbn [stats_count stats_dimension stats_metric].
    split; [done|]. split; [done|]. split; [by apply or_number_not_nan|].
    split.
    + by intros m ->.
    + by intros ->.
Qed.

(** [deleteIndex] hands exactly one DeleteIndex command to the client and
    returns when it is accepted; otherwise the caller receives one
    [delete_index_failed] error with the thrown value as details. *)
Theorem deleteIndex_run params st reply w :
  let command := DeleteIndexCommand bucket (deleteIndex_indexName params) in
  send command (world st) = (reply, w) →
  deleteIndex send bucket params st
  = (match reply with
     | inr _ => Returned tt
     | inl error =>
         Threw (StoreError (mkVectorStoreError
           ("Failed to delete index " ++ deleteIndex_indexName params ++ ": "
              ++ error_text error)
           "delete_index_failed" (Some error)))
     end,
     sent command w st).
Proof.
  intros command H. unfold deleteIndex.
  rewrite (try_send_run send _ (λ _, tt)). fold command. rewrite H.
  by destruct reply.
Qed.

(** [listIndexes] hands exactly one ListIndexes command to the client and
    returns the [indexes] of the answer, the empty array when the answer
    has none; on a failure the caller receives one [list_indexes_failed]
    error with the thrown value as details. *)
Theorem listIndexes_run st reply w :
  let command := ListIndexesCommand bucket in
  send command (world st) = (reply, w) →
  listIndexes send bucket st
  = (match reply with
     | inr response =>
         Returned (match resp_indexes response with
                   | Some names => names
                   | None => []
                   end)
     | inl error =>
         Threw (StoreError (mkVectorStoreError
           ("Failed to list indexes: " ++ error_text error)
           "list_indexes_failed" (Some error)))
     end,
     sent command w st).
Proof.
  intros command H. unfold listIndexes. rewrite try_send_run.
  fold command. rewrite H. by destruct reply.
Qed.

(** [deleteVector] hands exactly one DeleteVectors command to the client,
    whose keys are the one id of the call, and returns when it is
    accepted; otherwise the caller receives one [delete_vector_failed]
    error with the thrown value as details. *)
Theorem deleteVector_run params st reply w :
  let command :=
    DeleteVectorsCommand bucket (delete_indexName params) [delete_id params] in
  send command (world st) = (reply, w) →
  deleteVector send bucket params st
  = (match reply with
     | inr _ => Returned tt
     | inl error =>
         Threw (StoreError (mkVectorStoreError
           ("Failed to delete vector " ++ delete_id params ++ " from index "
              ++ delete_indexName params ++ ": " ++ error_text error)
           "delete_vector_failed" (Some error)))
     end,
     sent command w st).
Proof.
  intros command H. unfold deleteVector. cbn zeta.
  rewrite (try_send_run send _ (λ _, tt)). fold command. rewrite H.
  by destruct reply.
Qed.

(** With a vector in the update, an empty one included, [updateVector]
    hands exactly one PutVectors command to the client, with the one
    record of the call: its id as key, the vector, and the metadata as
    given (none when the update has none).  It returns when the command
    is accepted; otherwise the caller receives one
    [update_vector_failed] error with the thrown value as details. *)
Theorem updateVector_with_vector_run params st v reply w :
  update_vector (update params) = Some v →
  let command :=
    PutVectorsCommand bucket (update_indexName params)
      [ {| put_key := update_id params;
           put_data := v;
           put_metadata := update_metadata (update params) |} ] in
  send command (world st) = (reply, w) →
  updateVector send bucket params st
  = (match reply with
     | inr _ => Returned tt
     | inl error =>
         Threw (StoreError (mkVectorStoreError
           ("Failed to update vector " ++ update_id params ++ " in index "
              ++ update_indexName params ++ ": " ++ error_text error)
           "update_vector_failed" (Some error)))
     end,
     sent command w st).
Proof.
  intros Hv command H. unfold updateVector. rewrite Hv. cbn zeta.
  rewrite (try_send_run send _ (λ _, tt)). fold command. rewrite H.
  by destruct reply.
Qed.

(** ** validateExistingIndex *)

(** When the index is described, the validation returns exactly when the
    described dimension equals the expected one as numbers and the
    described metric's name is the expected string; otherwise the caller
    receives the [index_mismatch] error itself, without details and
    without a wrapper.  One GetIndex command is handed over either way. *)
Theorem validateExistingIndex_described indexName dim metric st response w :
  let command := GetIndexCommand bucket indexName in
  send command (world st) = (inr response, w) →
  let described := Js.or_number (resp_index response ≫= dimension) 0%float in
  let name :=
    metric_name (Js.or_object (resp_index response ≫= distanceMetric) cosine) in
  validateExistingIndex send bucket indexName dim metric st
  = (if PrimFloat.eqb described dim && String.eqb name metric
     then Returned tt
     else Threw (StoreError (mkVectorStoreError
            ("Index " ++ indexName
               ++ " already exists with different dimension or metric")
            "index_mismatch" None)),
     sent command w st).
Proof.
  intros command H described name.
  unfold validateExistingIndex, bind, describeIndex.
  rewrite try_send_run. cbn [describe_indexName]. fold command. rewrite H.
  cbn [stats_dimension stats_metric]. fold described name.
  by destruct (PrimFloat.eqb described dim), (String.eqb name metric).
Qed.

(** When the index cannot be described, the caller receives the
    [describe_failed] error of [describeIndex], not [index_mismatch]. *)
Theorem validateExistingIndex_not_described indexName dim metric st error w :
  let command := GetIndexCommand bucket indexName in
  send command (world st) = (inl error, w) →
  validateExistingIndex send bucket indexName dim metric st
  = (Threw (StoreError (mkVectorStoreError
       ("Failed to describe index " ++ indexName ++ ": " ++ error_text error)
       "describe_failed" (Some error))),
     sent command w st).
Proof.
  intros command H. unfold validateExistingIndex, bind, describeIndex.
  rewrite try_send_run. cbn [describe_indexName]. fold command. by rewrite H.
Qed.

(** An expected dimension that is NaN never validates. *)
Theorem validateExistingIndex_nan_dimension indexName dim metric st response w :
  is_nan dim = true →
  send (GetIndexCommand bucket indexName) (world st) = (inr response, w) →
  ∃ err,
    (validateExistingIndex send bucket indexName dim metric st).1
    = Threw (StoreError err)
    ∧ code err = "index_mismatch"
    ∧ details err = None.
Proof.
  intros Hnan H.
  unfold validateExistingIndex, bind, describeIndex.
  rewrite try_send_run. cbn [describe_indexName]. rewrite H.
  cbn [stats_dimension stats_metric]. rewrite eqb_nan_r by done.
  by eexists.
Qed.

End FacadeMore.

(** ** createClient *)

(** The client is given explicit credentials exactly when the
    configuration has both an access key id and a secret access key that
    are non-empty strings; they are then those two and the session token
    as configured.  Region and endpoint are passed on as they are. *)
Theorem createClient_credentials config :
  client_region (createClient config) = region config
  ∧ client_endpoint (createClient config) = endpoint config
  ∧ (∀ creds,
       client_credentials (createClient config) = Some creds
       ↔ (accessKeyId config = Some (cred_accessKeyId creds)
          ∧ secretAccessKey config = Some (cred_secretAccessKey creds)
          ∧ cred_accessKeyId creds ≠ ""
          ∧ cred_secretAccessKey creds ≠ ""
          ∧ cred_sessionToken creds = sessionToken config)).
Proof.
  split; [done|]. split; [done|]. intros [k s t]. unfold createClient.
  cbn [client_credentials cred_accessKeyId cred_secretAccessKey cred_sessionToken].
  destruct (accessKeyId config) as [a|], (secretAccessKey config) as [b|];
    try (split; [done|by intros (? & ? & _)]).
  destruct a, b; simpl; (split; [intros E|intros (E1 & E2 & Hk & Hs & Ht)]);
    by simplify_eq.
Qed.

(** ** Where the commands go *)

Section Addressing.

Context {World : Type}.
Variable send : Command → World → (Thrown + Response) * World.
Variable bucket : string.

Lemma one_call_addressed {A} command (f : Response → A) handler index :
  command_bucket command = bucket →
  command_index command = index →
  (∀ error st, (handler error st).2 = st) →
  addressed_to bucket index
    (try_catch (bind (client_send send command) (λ response, ret (f response)))
       handler).
Proof.
  intros Hb Hi Hh st. rewrite try_send_run.
  destruct (send command (world st)) as [[error|response] w];
    exists [command]; rewrite ?Hh; by repeat constructor.
Qed.

(** Every command a method hands to the client is addressed to the
    store's bucket and to the index named in the call (to no index for
    [listIndexes]), and the log of commands only grows. *)
Theorem every_command_is_addressed_to_the_store_bucket :
  (∀ params, addressed_to bucket (Some (create_indexName params))
               (createIndex send bucket params))
  ∧ (∀ params, addressed_to bucket (Some (upsert_indexName params))
                 (upsert send bucket params))
  ∧ (∀ params, addressed_to bucket (Some (query_indexName params))
                 (query send bucket params))
  ∧ (∀ params, addressed_to bucket (Some (describe_indexName params))
                 (describeIndex send bucket params))
  ∧ (∀ params, addressed_to bucket (Some (deleteIndex_indexName params))
                 (deleteIndex send bucket params))
  ∧ addressed_to bucket None (listIndexes send bucket)
  ∧ (∀ params, addressed_to bucket (Some (update_indexName params))
                 (updateVector send bucket params))
  ∧ (∀ params, addressed_to bucket (Some (delete_indexName params))
                 (deleteVector send bucket params))
  ∧ (∀ indexName dim metric,
       addressed_to bucket (Some indexName)
         (validateExistingIndex send bucket indexName dim metric)).
Proof.
  repeat split.
  - intros params. by apply (one_call_addressed _ (λ _, tt)).
  - intros params st.
    destruct (upsert_batched_trace send bucket 10 params st ltac:(lia))
      as (n & _ & Hcalls & _).
    eexists. split; [exact Hcalls|].
    apply Forall_fmap, Forall_forall. by intros i _.
  - intros params. by apply one_call_addressed.
  - intros params. by apply one_call_addressed.
  - intros params. by apply (one_call_addressed _ (λ _, tt)).
  - by apply one_call_addressed.
  - intros params st. unfold updateVector.
    destruct (update_vector (update params)) as [v|].
    + by apply (one_call_addressed _ (λ _, tt)).
    + exists []. by rewrite app_nil_r.
  - intros params. by apply (one_call_addressed _ (λ _, tt)).
  - intros indexName dim metric st.
    unfold validateExistingIndex, bind, describeIndex. rewrite try_send_run.
    cbn [describe_indexName].
    destruct (send _ (world st)) as [[error|response] w];
      exists [GetIndexCommand bucket indexName].
    + by repeat constructor.
    + cbn [stats_dimension stats_metric].
      destruct (negb _ || negb _); by repeat constructor.
Qed.

(** ** What upsert writes to the console *)

Lemma upsert_batched_state b params st :
  (upsert_batched send bucket b params st).2
  = (upsert_loop send bucket b params (length (vectors params)) 0 st).2.
Proof.
  unfold upsert_batched, try_catch, bind.
  by destruct (upsert_loop _ _ _ _ _ _ st) as [[] st'].
Qed.

Lemma upsert_loop_lines b params fuel i st :
  0 < b → length (vectors params) - i ≤ fuel →
  let r := upsert_loop send bucket b params fuel i st in
  ∃ n,
    calls r.2
    = (calls st ++ (batch_command bucket b params
                      <$> take n (batch_starts b (length (vectors params)) i)))%list
    ∧ console r.2
      = (console st ++ (log_line b params
                          <$> take n (batch_starts b (length (vectors params)) i)))%list.
Proof.
  intros Hb. revert i st.
  induction fuel as [|fuel IH]; intros i st Hfuel r; subst r.
  - rewrite upsert_loop_exit by lia. exists 0. by rewrite !app_nil_r.
  - destruct (decide (i < length (vectors params))) as [Hi|Hi].
    + rewrite batch_starts_step, upsert_loop_step by done. cbn zeta.
      destruct (send _ (world st)) as [[error|response] w1].
      * by exists 1.
      * match goal with
        | |- context [upsert_loop _ _ _ _ _ _ ?s] =>
            destruct (IH (i + b) s ltac:(lia)) as (n & Hc & Hl)
        end.
        exists (S n). rewrite Hc, Hl. cbn [calls console take fmap list_fmap].
        by rewrite <- !app_assoc.
    + rewrite upsert_loop_exit by lia. exists 0. by rewrite !app_nil_r.
Qed.

(** Before each write, and only then, [upsert] writes one line to the
    console, which gives the 1-based range of the batch and the index:
    the lines and the commands of a call go by pairs, for the same
    batches. *)
Theorem upsert_logs_one_line_per_write params st :
  let r := upsert send bucket params st in
  ∃ starts,
    calls r.2 = (calls st ++ (batch_command bucket 10 params <$> starts))%list
    ∧ console r.2
      = (console st
           ++ ((λ i, ("Upserting vectors " ++ Js.template_nat (i + 1) ++ " to "
                        ++ Js.template_nat ((i + 10) `min` length (vectors params))
                        ++ " into index " ++ upsert_indexName params)%string)
                 <$> starts))%list
    ∧ Forall (λ i, i < length (vectors params) ∧ ∃ j, i = j * 10) starts.
Proof.
  intros r. subst r. unfold upsert, BATCH_SIZE. rewrite upsert_batched_state.
  destruct (upsert_loop_lines 10 params (length (vectors params)) 0 st
              ltac:(lia) ltac:(lia)) as (n & Hc & Hl).
  eexists. split; [exact Hc|]. split; [exact Hl|].
  apply Forall_take, Forall_forall. intros i Hi. split.
  - by eapply batch_starts_below; [|done]; lia.
  - rewrite batch_starts_0 in Hi.
    apply list_elem_of_fmap in Hi as (j & -> & _). by exists j.
Qed.

End Addressing.

(** * Concrete runs of the further properties *)

Lemma upsert_without_vectors_calls_nothing_witness :
  upsert Scripted.send "bucket" ids_without_vectors (Scripted.start [inl boom])
  = (Returned ["a"], Scripted.start [inl boom]).
Proof.
  apply (upsert_without_vectors_calls_nothing Scripted.send "bucket"
           ids_without_vectors (Scripted.start [inl boom])).
  reflexivity.
Defined.

Lemma upsert_returned_ids_are_the_written_keys_witness :
  ∃ issued,
    calls (upsert Scripted.send "bucket" two_docs (Scripted.start [])).2
    = ([] ++ issued)%list
    ∧ put_key <$> concat (put_vectors_of <$> issued) = ["a"; "b"]
    ∧ ["a"; "b"] = ["a"; "b"].
Proof.
  apply (upsert_returned_ids_are_the_written_keys Scripted.send "bucket"
           two_docs (Scripted.start []) ["a"; "b"] ["a"; "b"]).
  - reflexivity.
  - reflexivity.
  - repeat constructor; discriminate.
  - reflexivity.
Defined.

Lemma upsert_unusable_id_is_replaced_in_the_write_witness :
  ["a"; ""] = ["a"; ""]
  ∧ ∃ issued record,
      calls (upsert Scripted.send "bucket" second_id_empty (Scripted.start [])).2
      = ([] ++ issued)%list
      ∧ concat (put_vectors_of <$> issued) !! 1 = Some record
      ∧ put_key record = "vector_" ++ Js.template_nat 1
      ∧ ["a"; ""] !! 1 ≠ Some (put_key record).
Proof.
  apply (upsert_unusable_id_is_replaced_in_the_write Scripted.send "bucket"
           second_id_empty (Scripted.start []) ["a"; ""] 1 ["a"; ""]).
  - reflexivity.
  - simpl. lia.
  - left. reflexivity.
  - reflexivity.
Defined.

Lemma upsert_records_do_not_depend_on_batch_size_witness :
  let params := docs_without_ids 25 in
  ∃ issued1 issued2,
    calls (upsert_batched Scripted.send "bucket" 10 params (Scripted.start [])).2
    = ([] ++ issued1)%list
    ∧ calls (upsert_batched Scripted.send "bucket" 7 params (Scripted.start [])).2
      = ([] ++ issued2)%list
    ∧ concat (put_vectors_of <$> issued1) = concat (put_vectors_of <$> issued2)
    ∧ @nil string = [].
Proof.
  apply (upsert_records_do_not_depend_on_batch_size Scripted.send "bucket"
           10 7 (docs_without_ids 25) (Scripted.start []) (Scripted.start [])
           [] []); [lia|lia|reflexivity|reflexivity].
Defined.

Lemma upsert_thrown_shape_witness :
  let params := docs_without_ids 25 in
  ∃ error,
    (issue_in_order Scripted.send
       (batch_command "bucket" 10 params
          <$> batch_starts 10 (length (vectors params)) 0)
       [Scripted.ok; inl boom]).1.2 = Some error
    ∧ StoreError (upsert_outer_error params boom)
      = StoreError (upsert_outer_error params error)
    ∧ details (upsert_outer_error params error)
      = Some (StoreError (upsert_inner_error params error))
    ∧ details (upsert_inner_error params error) = Some error.
Proof.
  apply (upsert_thrown_shape Scripted.send "bucket" (docs_without_ids 25)
           (Scripted.start [Scripted.ok; inl boom])
           (StoreError (upsert_outer_error (docs_without_ids 25) boom))).
  reflexivity.
Defined.

Lemma upsert_returns_when_writes_are_accepted_witness :
  (upsert Accepting.send "bucket" two_docs Accepting.start).1
  = Returned ["a"; "b"].
Proof.
  apply (upsert_returns_when_writes_are_accepted Accepting.send "bucket"
           two_docs Accepting.start).
  intros c w0 _. exists empty_response, (S w0). reflexivity.
Defined.

Lemma query_remote_failure_witness :
  query Scripted.send "bucket" at_least_half (Scripted.start [inl boom])
  = (Threw (StoreError (mkVectorStoreError
       "Failed to query index docs: boom" "query_failed" (Some boom))),
     sent (query_command "bucket" at_least_half) []
       (Scripted.start [inl boom])).
Proof.
  apply (query_remote_failure Scripted.send "bucket" at_least_half
           (Scripted.start [inl boom]) boom []).
  reflexivity.
Defined.

Lemma query_without_minScore_keeps_every_candidate_witness :
  ∃ results,
    (query Scripted.send "bucket" no_threshold answered).1 = Returned results
    ∧ length results = length (candidates three_candidates)
    ∧ id <$> results = key <$> candidates three_candidates
    ∧ (resp_vectors three_candidates = None → results = []).
Proof.
  apply (query_without_minScore_keeps_every_candidate Scripted.send "bucket"
           no_threshold answered three_candidates []); reflexivity.
Defined.

Lemma query_result_fields_witness :
  ∃ survivors results,
    (query Scripted.send "bucket" no_threshold
       (Scripted.start [inr with_a_nan_distance])).1 = Returned results
    ∧ survivors `sublist_of` candidates with_a_nan_distance
    ∧ Forall2
        (λ c result,
           id result = key c
           ∧ (∀ m, cand_metadata c = Some m → metadata result = m)
           ∧ (cand_metadata c = None → metadata result = [])
           ∧ (includeVector no_threshold = Some true → vector result = data c)
           ∧ (includeVector no_threshold ≠ Some true → vector result = None))
        survivors results.
Proof.
  apply (query_result_fields Scripted.send "bucket" no_threshold
           (Scripted.start [inr with_a_nan_distance]) with_a_nan_distance []).
  reflexivity.
Defined.

Lemma query_nan_minScore_keeps_only_unranked_witness :
  (query Scripted.send "bucket" nan_threshold answered).1
  = Returned (to_QueryResult nan_threshold
                <$> List.filter without_distance (candidates three_candidates)).
Proof.
  apply (query_nan_minScore_keeps_only_unranked Scripted.send "bucket"
           nan_threshold answered nan three_candidates []); reflexivity.
Defined.

Lemma query_nan_distance_is_dropped_witness :
  ∃ survivors,
    (query Scripted.send "bucket" at_least_half
       (Scripted.start [inr with_a_nan_distance])).1
    = Returned (to_QueryResult at_least_half <$> survivors)
    ∧ survivors `sublist_of` candidates with_a_nan_distance
    ∧ lost ∉ survivors.
Proof.
  apply (query_nan_distance_is_dropped Scripted.send "bucket" at_least_half
           (Scripted.start [inr with_a_nan_distance]) 0.5%float
           with_a_nan_distance [] lost nan); reflexivity.
Defined.

Lemma query_higher_minScore_returns_a_subsequence_witness :
  ∃ results_low results_high,
    (query Scripted.send "bucket" at_least_quarter answered).1
    = Returned results_low
    ∧ (query Scripted.send "bucket" at_least_half answered).1
      = Returned results_high
    ∧ results_high `sublist_of` results_low.
Proof.
  apply (query_higher_minScore_returns_a_subsequence Scripted.send "bucket"
           at_least_quarter at_least_half answered answered
           0.25%float 0.5%float three_candidates [] []); reflexivity.
Defined.

Lemma createIndex_run_witness :
  createIndex Scripted.send "bucket" new_index (Scripted.start [inl boom])
  = (Threw (StoreError (mkVectorStoreError
       "Failed to create index docs: boom" "index_creation_failed" (Some boom))),
     sent (CreateIndexCommand "bucket" "docs" "float32" 1536%float cosine) []
       (Scripted.start [inl boom])).
Proof.
  apply (createIndex_run Scripted.send "bucket" new_index
           (Scripted.start [inl boom]) (inl boom) []).
  reflexivity.
Defined.

Lemma describeIndex_run_witness :
  let params := {| describe_indexName := "docs" |} in
  let st := Scripted.start [inr index_of_three] in
  ∃ outcome,
    describeIndex Scripted.send "bucket" params st
    = (outcome, sent (GetIndexCommand "bucket" "docs") [] st)
    ∧ (∀ response, @inr Thrown Response index_of_three = inr response →
         ∃ stats,
           outcome = Returned stats
           ∧ stats_count stats = 0%float
           ∧ stats_dimension stats
             = Js.or_number (resp_index response ≫= dimension) 0%float
           ∧ is_nan (stats_dimension stats) = false
           ∧ (∀ m, resp_index response ≫= distanceMetric = Some m →
                stats_metric stats = m)
           ∧ (resp_index response ≫= distanceMetric = None →
              stats_metric stats = cosine))
    ∧ (∀ error, @inr Thrown Response index_of_three = inl error →
         outcome
         = Threw (StoreError (mkVectorStoreError
             ("Failed to describe index " ++ "docs" ++ ": " ++ error_text error)
             "describe_failed" (Some error)))).
Proof.
  apply (describeIndex_run Scripted.send "bucket"
           {| describe_indexName := "docs" |}
           (Scripted.start [inr index_of_three]) (inr index_of_three) []).
  reflexivity.
Defined.

Lemma deleteIndex_run_witness :
  let params := {| deleteIndex_indexName := "docs" |} in
  deleteIndex Scripted.send "bucket" params (Scripted.start [Scripted.ok])
  = (Returned tt,
     sent (DeleteIndexCommand "bucket" "docs") [] (Scripted.start [Scripted.ok])).
Proof.
  apply (deleteIndex_run Scripted.send "bucket"
           {| deleteIndex_indexName := "docs" |}
           (Scripted.start [Scripted.ok]) Scripted.ok []).
  reflexivity.
Defined.

Lemma listIndexes_run_witness :
  listIndexes Scripted.send "bucket" (Scripted.start [inr index_of_three])
  = (Returned ["docs"; "notes"],
     sent (ListIndexesCommand "bucket") [] (Scripted.start [inr index_of_three])).
Proof.
  apply (listIndexes_run Scripted.send "bucket"
           (Scripted.start [inr index_of_three]) (inr index_of_three) []).
  reflexivity.
Defined.

Lemma deleteVector_run_witness :
  let params := {| delete_indexName := "docs"; delete_id := "a" |} in
  deleteVector Scripted.send "bucket" params (Scripted.start [inl boom])
  = (Threw (StoreError (mkVectorStoreError
       "Failed to delete vector a from index docs: boom"
       "delete_vector_failed" (Some boom))),
     sent (DeleteVectorsCommand "bucket" "docs" ["a"]) []
       (Scripted.start [inl boom])).
Proof.
  apply (deleteVector_run Scripted.send "bucket"
           {| delete_indexName := "docs"; delete_id := "a" |}
           (Scripted.start [inl boom]) (inl boom) []).
  reflexivity.
Defined.

Lemma updateVector_with_vector_run_witness :
  updateVector Scripted.send "bucket" replace_with_nothing
    (Scripted.start [Scripted.ok])
  = (Returned tt,
     sent (PutVectorsCommand "bucket" "docs"
             [ {| put_key := "a"; put_data := []; put_metadata := None |} ])
       [] (Scripted.start [Scripted.ok])).
Proof.
  apply (updateVector_with_vector_run Scripted.send "bucket"
           replace_with_nothing (Scripted.start [Scripted.ok]) []
           Scripted.ok []); reflexivity.
Defined.

Lemma validateExistingIndex_described_witness :
  validateExistingIndex Scripted.send "bucket" "docs" 3%float "euclidean"
    (Scripted.start [inr index_of_three])
  = (Returned tt,
     sent (GetIndexCommand "bucket" "docs") []
       (Scripted.start [inr index_of_three])).
Proof.
  apply (validateExistingIndex_described Scripted.send "bucket" "docs"
           3%float "euclidean" (Scripted.start [inr index_of_three])
           index_of_three []).
  reflexivity.
Defined.

Lemma validateExistingIndex_not_described_witness :
  validateExistingIndex Scripted.send "bucket" "docs" 3%float "cosine"
    (Scripted.start [inl boom])
  = (Threw (StoreError (mkVectorStoreError
       "Failed to describe index docs: boom" "describe_failed" (Some boom))),
     sent (GetIndexCommand "bucket" "docs") [] (Scripted.start [inl boom])).
Proof.
  apply (validateExistingIndex_not_described Scripted.send "bucket" "docs"
           3%float "cosine" (Scripted.start [inl boom]) boom []).
  reflexivity.
Defined.

Lemma validateExistingIndex_nan_dimension_witness :
  ∃ err,
    (validateExistingIndex Scripted.send "bucket" "docs" nan "euclidean"
       (Scripted.start [inr index_of_three])).1
    = Threw (StoreError err)
    ∧ code err = "index_mismatch"
    ∧ details err = None.
Proof.
  apply (validateExistingIndex_nan_dimension Scripted.send "bucket" "docs"
           nan "euclidean" (Scripted.start [inr index_of_three])
           index_of_three []); reflexivity.
Defined.
